(** * simplegrad: a scalar reverse-mode automatic-differentiation engine

    A shallow embedding of [simplegrad/tensor.py] and [simplegrad/nn.py].

    Python objects of class [Tensor] live in a heap; a reference is the
    position of the object in allocation order.  Python floats are IEEE-754
    binary64 numbers, which is what Rocq's primitive floats are, so the
    arithmetic of the engine is evaluated exactly as the interpreter does.
    Plain [int] operands are converted to floats, as Python does when an
    [int] meets a [float] in [+] or [*].

    The [_backward] closures of the source are defunctionalised: a closure is
    the name of the rule together with the variables it captures
    ([self], [operand], [out], [power], [value]). *)

From Stdlib Require Import Floats.PrimFloat Floats.FloatOps.
From stdpp Require Import base option list gmap strings.

#[local] Set Warnings "-clear-no-such-hyp".

(** ** Exceptions and the interpreter monad *)

Inductive exn :=
| AttributeError (attr : string)
| TypeError (msg : string)
| IndexError
| UnboundLocalError
| RecursionError
| OverflowError
| ZeroDivisionError
| ReferenceError.

Inductive result (A : Type) :=
| Ok (a : A)
| Raise (e : exn).
Arguments Ok {A} a.
Arguments Raise {A} e.

Definition result_bind {A B} (f : A -> result B) (r : result A) : result B :=
  match r with
  | Ok a => f a
  | Raise e => Raise e
  end.

#[global] Instance result_ret : MRet result := @Ok.
#[global] Instance result_mbind : MBind result := @result_bind.
#[global] Instance result_fmap : FMap result :=
  fun A B f r => result_bind (fun a => Ok (f a)) r.

(** ** The data model: [Tensor] objects in a heap *)

Abbreviation ref := nat.

(** The closures bound to [_backward]. [noop] is [lambda: None]. *)
Inductive closure :=
| noop
| add_backward (self operand out : ref)
| mul_backward (self operand out : ref)
| pow_backward (self : ref) (power : float) (out : ref)
| exp_backward (self : ref) (value : float) (out : ref)
| tanh_backward (self : ref) (value : float) (out : ref).

(** [_children] is a Python set of objects hashed by identity.  It is kept
    as the duplicate-free list of its elements in the order the interpreter
    iterates over it; that order is fixed once the set is built. *)
Record Tensor := mkTensor {
  value : float;
  _children : list ref;
  grad : float;
  _backward : closure
}.

Abbreviation heap := (list Tensor).

Definition with_grad (g : float) (t : Tensor) : Tensor :=
  mkTensor (value t) (_children t) g (_backward t).
Definition with_children (cs : list ref) (t : Tensor) : Tensor :=
  mkTensor (value t) cs (grad t) (_backward t).
Definition with_backward (c : closure) (t : Tensor) : Tensor :=
  mkTensor (value t) (_children t) (grad t) c.

(** A Python value that can meet a [Tensor] in an expression: a plain number,
    a [Tensor], or any other object.  [PyOther] stands for the objects that
    have no attribute [value] (a [str], a [list], [None], ...). *)
Inductive pyobj :=
| PyNum (x : float)
| PyTensor (r : ref)
| PyOther.

(** State and exceptions. *)
Definition M (A : Type) : Type := heap -> result (A * heap).

#[global] Instance M_ret : MRet M := fun A a h => Ok (a, h).
#[global] Instance M_bind : MBind M := fun A B f m h =>
  match m h with
  | Ok (a, h') => f a h'
  | Raise e => Raise e
  end.
#[global] Instance M_fmap : FMap M := fun A B f m h =>
  match m h with
  | Ok (a, h') => Ok (f a, h')
  | Raise e => Raise e
  end.

Definition raise {A} (e : exn) : M A := fun _ => Raise e.
Definition lift {A} (r : result A) : M A := fun h =>
  match r with
  | Ok a => Ok (a, h)
  | Raise e => Raise e
  end.

Definition getattr {A} (field : Tensor -> A) (r : ref) : M A := fun h =>
  match h !! r with
  | Some t => Ok (field t, h)
  | None => Raise ReferenceError
  end.

Definition setattr (upd : Tensor -> Tensor) (r : ref) : M unit := fun h =>
  match h !! r with
  | Some t => Ok (tt, <[r := upd t]> h)
  | None => Raise ReferenceError
  end.

(** Python's [/] on floats raises when the divisor is zero. *)
Definition float_div (a b : float) : result float :=
  if (b =? 0)%float then Raise ZeroDivisionError else Ok (a / b)%float.

(** [for x in xs: body x] *)
Fixpoint for_ {A} (xs : list A) (body : A -> M unit) : M unit :=
  match xs with
  | [] => mret tt
  | x :: xs => body x ;; for_ xs body
  end.

(** [[f x for x in xs]] *)
Fixpoint comprehension {A B} (f : A -> M B) (xs : list A) : M (list B) :=
  match xs with
  | [] => mret []
  | x :: xs => y ← f x; ys ← comprehension f xs; mret (y :: ys)
  end.

(** ** tensor.py *)

Section Tensor.

(** What the host interpreter supplies: [math.exp] and [float.__pow__] (both
    can raise), the order in which a two-element set of objects is iterated,
    and the recursion limit. *)
Variable math_exp : float -> result float.
Variable float_pow : float -> float -> result float.
Variable set_order : ref -> ref -> bool.
Variable recursion_limit : nat.

(** [Tensor.__init__] *)
Definition __init__ (value : float) : M ref := fun h =>
  Ok (List.length h, h ++ [mkTensor value [] 0%float noop]).

(** The set display [{a, b}]. *)
Definition set2 (a b : ref) : list ref :=
  if decide (a = b) then [a]
  else if set_order a b then [a; b] else [b; a].

(** [Tensor(value=operand) if isinstance(operand, (float, int)) else operand],
    followed by the first use of the result, [operand.value], which is where
    an object that is not a [Tensor] makes the call fail. *)
Definition coerce (operand : pyobj) : M ref :=
  match operand with
  | PyNum x => __init__ x
  | PyTensor r => mret r
  | PyOther => raise (AttributeError "value"%string)
  end.

Definition __add__ (self : ref) (operand : pyobj) : M ref :=
  operand ← coerce operand;
  a ← getattr value self;
  b ← getattr value operand;
  out ← __init__ (a + b)%float;
  setattr (with_children (set2 self operand)) out;;
  setattr (with_backward (add_backward self operand out)) self;;
  mret out.

Definition __radd__ (self : ref) (operand : pyobj) : M ref :=
  __add__ self operand.

Definition __mul__ (self : ref) (operand : pyobj) : M ref :=
  operand ← coerce operand;
  a ← getattr value self;
  b ← getattr value operand;
  out ← __init__ (a * b)%float;
  setattr (with_children (set2 self operand)) out;;
  setattr (with_backward (mul_backward self operand out)) self;;
  mret out.

Definition __rmul__ (self : ref) (operand : pyobj) : M ref :=
  __mul__ self operand.

(** [-1 * self]: [int.__mul__] declines, so [self.__rmul__(-1)] runs. *)
Definition __neg__ (self : ref) : M ref :=
  __rmul__ self (PyNum (-1)%float).

Definition __pow__ (self : ref) (power : float) : M ref :=
  a ← getattr value self;
  v ← lift (float_pow a power);
  out ← __init__ v;
  setattr (with_children [self]) out;;
  setattr (with_backward (pow_backward self power out)) self;;
  mret out.

(** Unary minus on an arbitrary operand. *)
Definition py_neg (operand : pyobj) : M pyobj :=
  match operand with
  | PyNum x => mret (PyNum (- x)%float)
  | PyTensor r => PyTensor <$> __neg__ r
  | PyOther => raise (TypeError "bad operand type for unary -"%string)
  end.

Definition __sub__ (self : ref) (operand : pyobj) : M ref :=
  negated ← py_neg operand;
  __add__ self negated.

(** [operand + (-self)]: a node operand takes the sum through its own
    [__add__]; any other operand declines, so [(-self).__radd__(operand)]
    runs. *)
Definition __rsub__ (self : ref) (operand : pyobj) : M ref :=
  negated ← __neg__ self;
  match operand with
  | PyTensor l => __add__ l (PyTensor negated)
  | _ => __radd__ negated operand
  end.

(** [operand ** -1] on an arbitrary operand. *)
Definition py_inverse (operand : pyobj) : M pyobj :=
  match operand with
  | PyNum x => PyNum <$> lift (float_pow x (-1)%float)
  | PyTensor r => PyTensor <$> __pow__ r (-1)%float
  | PyOther => raise (TypeError "unsupported operand type(s) for ** or pow()"%string)
  end.

Definition __truediv__ (self : ref) (operand : pyobj) : M ref :=
  inverse ← py_inverse operand;
  __mul__ self inverse.

Definition exp (self : ref) : M ref :=
  a ← getattr value self;
  value ← lift (math_exp a);
  out ← __init__ value;
  setattr (with_children [self]) out;;
  setattr (with_backward (exp_backward self value out)) self;;
  mret out.

Definition tanh (self : ref) : M ref :=
  a ← getattr value self;
  value ← lift (math_exp (2 * a)%float);
  value ← lift (float_div (value - 1) (value + 1));
  out ← __init__ value;
  setattr (with_children [self]) out;;
  setattr (with_backward (tanh_backward self value out)) self;;
  mret out.

(** [target.grad += delta], with [delta] already evaluated. *)
Definition add_to_grad (target : ref) (delta : float) : M unit :=
  g ← getattr grad target;
  setattr (with_grad (g + delta)%float) target.

(** Calling a closure: the body of the [_backward] function it names. *)
Definition call (c : closure) : M unit :=
  match c with
  | noop => mret tt
  | add_backward self operand out =>
      g ← getattr grad out;
      add_to_grad self g;;
      g ← getattr grad out;
      add_to_grad operand g
  | mul_backward self operand out =>
      b ← getattr value operand;
      g ← getattr grad out;
      add_to_grad self (b * g)%float;;
      a ← getattr value self;
      g ← getattr grad out;
      add_to_grad operand (a * g)%float
  | pow_backward self power out =>
      a ← getattr value self;
      p ← lift (float_pow a (power - 1)%float);
      g ← getattr grad out;
      add_to_grad self ((power * p) * g)%float
  | exp_backward self value out =>
      g ← getattr grad out;
      add_to_grad self (value * g)%float
  | tanh_backward self value out =>
      sq ← lift (float_pow value 2%float);
      g ← getattr grad out;
      add_to_grad self ((1 - sq) * g)%float
  end.

(** The state of [_topological_sort]: the [visited] set and the list
    [topological_order]. *)
Definition sort_state : Type := gset ref * list ref.

Fixpoint for_children (f : ref -> sort_state -> result sort_state)
    (children : list ref) (st : sort_state) : result sort_state :=
  match children with
  | [] => Ok st
  | child :: rest => st' ← f child st; for_children f rest st'
  end.

(** The inner function [_sort]; [depth] is the number of frames left before
    the interpreter raises [RecursionError]. *)
Fixpoint _sort (depth : nat) (h : heap) (node : ref) (st : sort_state)
    : result sort_state :=
  match depth with
  | 0 => Raise RecursionError
  | S depth =>
      if decide (node ∈ st.1) then Ok st
      else
        match h !! node with
        | None => Raise ReferenceError
        | Some t =>
            st' ← for_children (_sort depth h) (_children t) ({[node]} ∪ st.1, st.2);
            Ok (st'.1, st'.2 ++ [node])
        end
  end.

Definition _topological_sort (self : ref) : M (list ref) := fun h =>
  st ← _sort recursion_limit h self (∅, []);
  Ok (st.2, h).

Definition backward (self : ref) : M unit :=
  setattr (with_grad 1%float) self;;
  order ← _topological_sort self;
  for_ (reverse order) (fun node => rule ← getattr _backward node; call rule).

End Tensor.

(** ** Python's binary [+] on arbitrary operands

    [lhs + rhs] calls [lhs.__add__(rhs)]; a plain number declines a [Tensor]
    on its right, and the interpreter then calls [rhs.__radd__(lhs)]. *)
Section Dispatch.

Variable set_order : ref -> ref -> bool.

Definition py_add (lhs rhs : pyobj) : M pyobj :=
  match lhs, rhs with
  | PyTensor l, _ => PyTensor <$> __add__ set_order l rhs
  | PyNum x, PyNum y => mret (PyNum (x + y)%float)
  | _, PyTensor r => PyTensor <$> __radd__ set_order r lhs
  | _, _ => raise (TypeError "unsupported operand type(s) for +"%string)
  end.

(** The builtin [sum], whose accumulator starts at the integer [0]. *)
Fixpoint py_sum (acc : pyobj) (items : list pyobj) : M pyobj :=
  match items with
  | [] => mret acc
  | item :: rest => acc' ← py_add acc item; py_sum acc' rest
  end.

Definition builtin_sum (items : list pyobj) : M pyobj :=
  py_sum (PyNum 0%float) items.

End Dispatch.

(** ** nn.py *)

Record Neuron := mkNeuron {
  weights : list ref;
  bias : ref
}.

Record Layer := mkLayer { neurons : list Neuron }.

Record MLP := mkMLP { layers : list Layer }.

(** What [Layer.__call__] returns: the list of outputs, or the single output
    when there is only one neuron. *)
Inductive layer_out :=
| Outputs (out : list ref)
| Output (out : ref).

Section NN.

Variable math_exp : float -> result float.
Variable set_order : ref -> ref -> bool.

(** [Neuron.__call__] *)
Definition Neuron_call (self : Neuron) (inputs : list float) : M ref :=
  products ← comprehension
    (fun wx : ref * float => __mul__ set_order wx.1 (PyNum wx.2))
    (zip (weights self) inputs);
  total ← builtin_sum set_order (PyTensor <$> products);
  out ← py_add set_order total (PyTensor (bias self));
  match out with
  | PyTensor out => tanh math_exp out
  | _ => raise (AttributeError "tanh"%string)
  end.

(** [Neuron.parameters] *)
Definition Neuron_parameters (self : Neuron) : list ref :=
  weights self ++ [bias self].

(** [Neuron.reset_gradients] *)
Definition Neuron_reset_gradients (self : Neuron) : M unit :=
  for_ (Neuron_parameters self) (setattr (with_grad 0%float)).

(** [Layer.__call__] *)
Definition Layer_call (self : Layer) (inputs : list float) : M layer_out :=
  out ← comprehension (fun n => Neuron_call n inputs) (neurons self);
  if decide (1 < List.length out) then mret (Outputs out)
  else match out with
       | o :: _ => mret (Output o)
       | [] => raise IndexError
       end.

(** The loop of [MLP.__call__]; [out] is unbound until the first iteration. *)
Fixpoint MLP_loop (ls : list Layer) (inputs : list float)
    (out : option layer_out) : M (option layer_out) :=
  match ls with
  | [] => mret out
  | layer :: rest =>
      out' ← Layer_call layer inputs;
      MLP_loop rest inputs (Some out')
  end.

(** [MLP.__call__] *)
Definition MLP_call (self : MLP) (inputs : list float) : M layer_out :=
  out ← MLP_loop (layers self) inputs None;
  match out with
  | Some out => mret out
  | None => raise UnboundLocalError
  end.

End NN.

(** [Layer.parameters] *)
Definition Layer_parameters (self : Layer) : list ref :=
  neuron ← neurons self; Neuron_parameters neuron.

(** [Layer.reset_gradients] *)
Definition Layer_reset_gradients (self : Layer) : M unit :=
  for_ (Layer_parameters self) (setattr (with_grad 0%float)).

(** [MLP.parameters] *)
Definition MLP_parameters (self : MLP) : list ref :=
  layer ← layers self; Layer_parameters layer.

(** [MLP.reset_gradients] *)
Definition MLP_reset_gradients (self : MLP) : M unit :=
  for_ (MLP_parameters self) (setattr (with_grad 0%float)).

(** *** Constructors

    [random.uniform(-1, 1)] draws from the global generator.  The generator
    is the sequence [uniform] of the values it will return, and its state is
    the number [k] of values drawn so far; a constructor takes the state and
    returns the new one.  [range(n)] is taken at a natural number [n]. *)
Section Init.

Variable uniform : nat -> float.

(** [[Tensor(random.uniform(-1, 1)) for _ in range(n_inputs)]] *)
Fixpoint Neuron_init_weights (n_inputs k : nat) : M (list ref * nat) :=
  match n_inputs with
  | 0 => mret ([], k)
  | S n =>
      w ← __init__ (uniform k);
      '(ws, k') ← Neuron_init_weights n (S k);
      mret (w :: ws, k')
  end.

(** [Neuron.__init__] *)
Definition Neuron_init (n_inputs k : nat) : M (Neuron * nat) :=
  '(ws, k') ← Neuron_init_weights n_inputs k;
  b ← __init__ 0%float;
  mret (mkNeuron ws b, k').

(** [[Neuron(n_inputs) for _ in range(n_units)]] *)
Fixpoint Layer_init_neurons (n_inputs n_units k : nat) : M (list Neuron * nat) :=
  match n_units with
  | 0 => mret ([], k)
  | S u =>
      '(n, k') ← Neuron_init n_inputs k;
      '(ns, k'') ← Layer_init_neurons n_inputs u k';
      mret (n :: ns, k'')
  end.

(** [Layer.__init__] *)
Definition Layer_init (n_inputs n_units k : nat) : M (Layer * nat) :=
  '(ns, k') ← Layer_init_neurons n_inputs n_units k;
  mret (mkLayer ns, k').

(** [[Layer(input_shapes[i], input_shapes[i + 1]) for i in indices]] *)
Fixpoint MLP_init_layers (input_shapes : list nat) (indices : list nat)
    (k : nat) : M (list Layer * nat) :=
  match indices with
  | [] => mret ([], k)
  | i :: rest =>
      match input_shapes !! i, input_shapes !! (i + 1) with
      | Some n_inputs, Some n_units =>
          '(l, k') ← Layer_init n_inputs n_units k;
          '(ls, k'') ← MLP_init_layers input_shapes rest k';
          mret (l :: ls, k'')
      | _, _ => raise IndexError
      end
  end.

(** [MLP.__init__] *)
Definition MLP_init (n_inputs : nat) (n_units : list nat) (k : nat)
    : M (MLP * nat) :=
  let input_shapes := n_inputs :: n_units in
  '(ls, k') ← MLP_init_layers input_shapes (seq 0 (List.length n_units)) k;
  mret (mkMLP ls, k').

End Init.

(** ** Method calls by name *)

Inductive operation :=
| Add (operand : pyobj)
| Neg
| Sub (operand : pyobj)
| Mul (operand : pyobj)
| Pow (power : float)
| Div (operand : pyobj)
| Exp
| Tanh.

Section Perform.

Variable math_exp : float -> result float.
Variable float_pow : float -> float -> result float.
Variable set_order : ref -> ref -> bool.

Definition perform (op : operation) (self : ref) : M ref :=
  match op with
  | Add operand => __add__ set_order self operand
  | Neg => __neg__ set_order self
  | Sub operand => __sub__ set_order self operand
  | Mul operand => __mul__ set_order self operand
  | Pow power => __pow__ float_pow self power
  | Div operand => __truediv__ float_pow set_order self operand
  | Exp => exp math_exp self
  | Tanh => tanh math_exp self
  end.

(** The five operations that build a node themselves; [neg], [sub] and
    [div] are defined through them. *)
Definition primitive (op : operation) : bool :=
  match op with
  | Add _ | Mul _ | Pow _ | Exp | Tanh => true
  | Neg | Sub _ | Div _ => false
  end.

End Perform.

(** * Specification vocabulary *)

(** ** Heaps before and after an operation *)

(** The heap a primitive operation leaves: the result node is appended and
    the closure is stored in [self]. *)
Definition installed (h : heap) (self : ref) (ts : Tensor) (rule : closure)
    (v : float) (cs : list ref) : heap :=
  <[self := with_backward rule ts]> (h ++ [mkTensor v cs 0%float noop]).

(** The fields other than [_backward]. *)
Definition same_data (t t' : Tensor) : Prop :=
  value t' = value t /\ _children t' = _children t /\ grad t' = grad t.

(** Every node of [h] is still in [h'], with the same value, operands and
    gradient. *)
Definition preserves (h h' : heap) : Prop :=
  List.length h <= List.length h' /\
  forall r t, h !! r = Some t -> exists t', h' !! r = Some t' /\ same_data t t'.

(** The node a closure reads its gradient from, and the first node it
    writes to. *)
Definition closure_out (c : closure) : option ref :=
  match c with
  | noop => None
  | add_backward _ _ out | mul_backward _ _ out | pow_backward _ _ out
  | exp_backward _ _ out | tanh_backward _ _ out => Some out
  end.

Definition closure_self (c : closure) : option ref :=
  match c with
  | noop => None
  | add_backward self _ _ | mul_backward self _ _ | pow_backward self _ _
  | exp_backward self _ _ | tanh_backward self _ _ => Some self
  end.

(** The graphs the operations of [tensor.py] can build. *)
Inductive constructed (math_exp : float -> result float)
    (float_pow : float -> float -> result float)
    (set_order : ref -> ref -> bool) : heap -> Prop :=
| constructed_empty : constructed math_exp float_pow set_order []
| constructed_leaf h v r h' :
    constructed math_exp float_pow set_order h ->
    __init__ v h = Ok (r, h') ->
    constructed math_exp float_pow set_order h'
| constructed_op h op self out h' :
    constructed math_exp float_pow set_order h ->
    is_Some (h !! self) ->
    perform math_exp float_pow set_order op self h = Ok (out, h') ->
    constructed math_exp float_pow set_order h'.

Definition zero_grad (t : Tensor) : Prop := grad t = 0%float.

(** [for node in graph: node.grad = 0.0] *)
Definition reset_all (h : heap) : heap := with_grad 0 <$> h.

(** The outcome of a computation, without the final heap. *)
Definition outcome {A} (r : result (A * heap)) : result A := fst <$> r.

(** ** Scenarios *)

Section Scenarios.

Variable float_pow : float -> float -> result float.
Variable set_order : ref -> ref -> bool.
Variable recursion_limit : nat.

Local Abbreviation backward := (backward float_pow recursion_limit).

(** [a = Tensor(va); b = Tensor(vb); z = a * b; z.backward()], then
    [(a.grad, b.grad)]. *)
Definition product_scenario (va vb : float) : M (float * float) :=
  a ← __init__ va;
  b ← __init__ vb;
  z ← __mul__ set_order a (PyTensor b);
  backward z;;
  ga ← getattr grad a;
  gb ← getattr grad b;
  mret (ga, gb).

(** [x = Tensor(v); y = x + x; y.backward()], then [x.grad]. *)
Definition fan_out_scenario (v : float) : M float :=
  x ← __init__ v;
  y ← __add__ set_order x (PyTensor x);
  backward y;;
  getattr grad x.

(** [x = Tensor(v); y = x * x; z = x * x * x; w = y + z; w.backward()],
    then [x.grad]. *)
Definition diamond_scenario (v : float) : M float :=
  x ← __init__ v;
  y ← __mul__ set_order x (PyTensor x);
  xx ← __mul__ set_order x (PyTensor x);
  z ← __mul__ set_order xx (PyTensor x);
  w ← __add__ set_order y (PyTensor z);
  backward w;;
  getattr grad x.

(** Evaluate [e], which mentions the node [a]; then the forward value of
    the result and, after [backward()] from the result, [a.grad]. *)
Definition value_and_gradient (a : ref) (e : M pyobj) : M (float * float) :=
  r ← e;
  match r with
  | PyTensor r =>
      v ← getattr value r;
      backward r;;
      g ← getattr grad a;
      mret (v, g)
  | _ => raise (AttributeError "backward"%string)
  end.

(** [a = Tensor(v)], then [value_and_gradient] of an expression in [a]. *)
Definition on_fresh_leaf (v : float) (e : ref -> M pyobj) : M (float * float) :=
  a ← __init__ v;
  value_and_gradient a (e a).

(** [a = Tensor(v); first = e1(a); second = e2(a)]: two results built, in
    this order, on the one leaf [a]. *)
Definition build_both (v : float) (e1 e2 : ref -> M pyobj)
    : M (ref * pyobj * pyobj) :=
  a ← __init__ v;
  first ← e1 a;
  second ← e2 a;
  mret (a, first, second).

(** [r.backward()], then [a.grad]. *)
Definition gradient_from (a : ref) (r : pyobj) : M float :=
  match r with
  | PyTensor r => backward r;; getattr grad a
  | _ => raise (AttributeError "backward"%string)
  end.

End Scenarios.

(** ** The operand graph *)

(** [o] is an operand of [n]. *)
Definition operand_of (h : heap) (n o : ref) : Prop :=
  exists t, h !! n = Some t /\ o ∈ _children t.

(** The nodes reachable from [T] along operand edges. *)
Definition reachable (h : heap) (T n : ref) : Prop := rtc (operand_of h) T n.

(** Every operand of a listed node is listed at a strictly smaller index. *)
Definition operands_first (h : heap) (order : list ref) : Prop :=
  forall i n o, order !! i = Some n -> operand_of h n o ->
    exists j, j < i /\ order !! j = Some o.

(** Operands were allocated before the nodes that use them. *)
Definition allocation_ordered (h : heap) : Prop :=
  forall n o, operand_of h n o -> o < n.

(** The states [_sort] is called in: a visited node that is not yet in the
    order is still being explored, so it ranks above [n]. *)
Definition sort_pre (h : heap) (rank : ref -> nat)
    (n : ref) (V : gset ref) (L : list ref) : Prop :=
  is_Some (h !! n) /\
  (forall v, v ∈ V -> v ∈ L \/ rank n < rank v) /\
  (forall x, x ∈ L -> x ∈ V) /\
  NoDup L /\
  operands_first h L.

(** What a call returns: it appends new nodes, all reachable from [n], and
    [n] is in the order afterwards. *)
Definition sort_post (h : heap) (n : ref) (V : gset ref) (L : list ref)
    (r : result sort_state) : Prop :=
  exists V' new,
    r = Ok (V', L ++ new) /\
    (forall v, v ∈ V' <-> v ∈ V \/ v ∈ new) /\
    n ∈ L ++ new /\
    NoDup (L ++ new) /\
    operands_first h (L ++ new) /\
    (forall x, x ∈ new -> reachable h n x).

Definition loop_post (h : heap) (cs : list ref) (V : gset ref) (L : list ref)
    (r : result sort_state) : Prop :=
  exists V' new,
    r = Ok (V', L ++ new) /\
    (forall v, v ∈ V' <-> v ∈ V \/ v ∈ new) /\
    (forall c, c ∈ cs -> c ∈ L ++ new) /\
    NoDup (L ++ new) /\
    operands_first h (L ++ new) /\
    (forall x, x ∈ new -> exists c, c ∈ cs /\ reachable h c x).

(** What [_topological_sort] from [T] is to return. *)
Definition valid_order (h : heap) (T : ref) (order : list ref) : Prop :=
  operands_first h order /\
  NoDup order /\
  (forall n, n ∈ order <-> reachable h T n).

(** ** Forward values *)

(** Node [r] exists and has value [v]. *)
Definition holds (h : heap) (r : ref) (v : float) : Prop :=
  value <$> h !! r = Some v.

(** [tanh(x)] as the source computes it. *)
Definition tanh_value (math_exp : float -> result float) (x : float)
    : result float :=
  e ← math_exp (2 * x)%float; float_div (e - 1) (e + 1).

(** The forward value of a neuron with weight values [ws] and bias value
    [b] on [inputs]: [sum] starts from the integer [0], so the first
    product is added to [0] from the right, and an empty sum leaves [0]
    to be added to the bias. *)
Definition neuron_value (math_exp : float -> result float)
    (ws : list float) (b : float) (inputs : list float) : result float :=
  match zip_with (fun w x => (w * x)%float) ws inputs with
  | [] => tanh_value math_exp (b + 0)
  | p :: ps =>
      tanh_value math_exp (foldl (fun acc q => (acc + q)%float) (p + 0)%float ps + b)
  end.

(** The node references of a neuron and the values they hold. *)
Definition neuron_in (h : heap) (n : Neuron) (ws : list float) (b : float) : Prop :=
  Forall2 (holds h) (weights n) ws /\ holds h (bias n) b.

(** The forward values of the neurons of a layer, in order; the first
    neuron whose [math.exp] raises ends the call. *)
Fixpoint layer_values (math_exp : float -> result float)
    (params : list (list float * float)) (inputs : list float)
    : result (list float) :=
  match params with
  | [] => Ok []
  | p :: rest =>
      v ← neuron_value math_exp p.1 p.2 inputs;
      vs ← layer_values math_exp rest inputs;
      Ok (v :: vs)
  end.

(** The nodes of a layer and the weight and bias values they hold. *)
Definition layer_in (h : heap) (l : Layer) (params : list (list float * float))
    : Prop :=
  Forall2 (fun n p => neuron_in h n p.1 p.2) (neurons l) params.

(** The forward values [vs] sit in the nodes a layer returned. *)
Definition out_holds (h : heap) (out : layer_out) (vs : list float) : Prop :=
  match out with
  | Outputs os => 1 < List.length os /\ Forall2 (holds h) os vs
  | Output o => exists v, vs = [v] /\ holds h o v
  end.

(** ** Forward values of the operations *)

(** The operand of [op], if it has one, is a number [x] or a node holding
    [x]. *)
Definition operand_value (h : heap) (operand : pyobj) (x : float) : Prop :=
  match operand with
  | PyNum y => x = y
  | PyTensor b => holds h b x
  | PyOther => False
  end.

Definition operand_ok (h : heap) (op : operation) (x : float) : Prop :=
  match op with
  | Add operand | Sub operand | Mul operand | Div operand =>
      operand_value h operand x
  | Neg | Pow _ | Exp | Tanh => True
  end.

(** The value of the node [self op operand], where [self] holds [a] and the
    operand brings [x].  Subtraction negates a number with unary minus and a
    node by multiplying it by [-1]; division multiplies by the operand
    raised to [-1]. *)
Definition forward_value (math_exp : float -> result float)
    (float_pow : float -> float -> result float)
    (op : operation) (a x : float) : result float :=
  match op with
  | Add _ => Ok (a + x)%float
  | Neg => Ok (a * -1)%float
  | Sub (PyNum _) => Ok (a + - x)%float
  | Sub _ => Ok (a + x * -1)%float
  | Mul _ => Ok (a * x)%float
  | Pow power => float_pow a power
  | Div _ => inverse ← float_pow x (-1)%float; Ok (a * inverse)%float
  | Exp => math_exp a
  | Tanh => tanh_value math_exp a
  end.

(** ** Deep graphs *)

(** Following the first operand in iteration order, [k] times from [n],
    stays inside the graph. *)
Fixpoint first_chain (h : heap) (n : ref) (k : nat) : Prop :=
  match k with
  | 0 => True
  | S k => exists t c rest,
      h !! n = Some t /\ _children t = c :: rest /\ first_chain h c k
  end.

(** ** One operation on a fresh leaf *)

Section LeafScenario.

Variable math_exp : float -> result float.
Variable float_pow : float -> float -> result float.
Variable set_order : ref -> ref -> bool.
Variable recursion_limit : nat.

(** [a = Tensor(v); t = a <op> operand; t.backward()], then
    [(t.value, a.grad)]. *)
Definition leaf_scenario (op : operation) (v : float) : M (float * float) :=
  a ← __init__ v;
  t ← perform math_exp float_pow set_order op a;
  backward float_pow recursion_limit t;;
  vt ← getattr value t;
  ga ← getattr grad a;
  mret (vt, ga).

(** The gradient the closure of [op] adds to a leaf holding [v] whose
    gradient is [0.0], when the result's gradient is [1.0]; [c] is the
    plain-number operand, if there is one. *)
Definition leaf_gradient (op : operation) (v c : float) : result float :=
  match op with
  | Add _ | Sub _ => Ok (0 + 1)%float
  | Neg => Ok (0 + -1 * 1)%float
  | Mul _ => Ok (0 + c * 1)%float
  | Div _ =>
      inverse ← float_pow c (-1)%float; Ok (0 + inverse * 1)%float
  | Pow power =>
      p ← float_pow v (power - 1)%float; Ok (0 + power * p * 1)%float
  | Exp => e ← math_exp v; Ok (0 + e * 1)%float
  | Tanh =>
      t ← tanh_value math_exp v;
      sq ← float_pow t 2%float;
      Ok (0 + (1 - sq) * 1)%float
  end.

End LeafScenario.

(** The operand of [op], if it has one, is the plain number [c]. *)
Definition number_operand (op : operation) (c : float) : Prop :=
  match op with
  | Add operand | Sub operand | Mul operand | Div operand => operand = PyNum c
  | Neg | Pow _ | Exp | Tanh => True
  end.

(** ** A neuron and its gradients *)

Section NeuronScenario.

Variable math_exp : float -> result float.
Variable float_pow : float -> float -> result float.
Variable set_order : ref -> ref -> bool.
Variable recursion_limit : nat.

(** A neuron over fresh leaves holding [ws] and [b]; [out = n(inputs);
    out.backward()], then [out.value] and the gradients of
    [n.parameters()]. *)
Definition neuron_scenario (ws : list float) (b : float)
    (inputs : list float) : M (float * list float) :=
  weights ← comprehension __init__ ws;
  bias ← __init__ b;
  let n := mkNeuron weights bias in
  out ← Neuron_call math_exp set_order n inputs;
  backward float_pow recursion_limit out;;
  v ← getattr value out;
  grads ← comprehension (getattr grad) (Neuron_parameters n);
  mret (v, grads).

End NeuronScenario.

(** ** Networks as the constructors build them *)

(** A node as [Tensor.__init__] leaves it. *)
Definition leaf (v : float) : Tensor := mkTensor v [] 0%float noop.

(** A layer of [n_units] neurons with [n_inputs] weights each. *)
Definition layer_has_shape (l : Layer) (n_inputs n_units : nat) : Prop :=
  List.length (neurons l) = n_units /\
  Forall (fun n => List.length (weights n) = n_inputs) (neurons l).

(** Layers sized [n_units], each taking as many inputs as the layer before
    it has units, the first one taking [n_inputs]. *)
Fixpoint mlp_has_shape (ls : list Layer) (n_inputs : nat) (n_units : list nat)
    : Prop :=
  match ls, n_units with
  | [], [] => True
  | l :: ls, u :: us => layer_has_shape l n_inputs u /\ mlp_has_shape ls u us
  | _, _ => False
  end.

(** The number of weights and of parameters (weights and biases). *)
Fixpoint weight_count (n_inputs : nat) (n_units : list nat) : nat :=
  match n_units with
  | [] => 0
  | u :: us => u * n_inputs + weight_count u us
  end.

Fixpoint parameter_count (n_inputs : nat) (n_units : list nat) : nat :=
  match n_units with
  | [] => 0
  | u :: us => u * (n_inputs + 1) + parameter_count u us
  end.

(** ** Operand sets and closures of built graphs *)

(** At most two operands, none repeated. *)
Definition operands_bounded (t : Tensor) : Prop :=
  NoDup (_children t) /\ List.length (_children t) <= 2.

(** Where the closures are: a node carries the default closure or the
    closure of an operation that had it as left operand, whose result [out]
    is a later node with the node among its operands. *)
Definition closure_layout (h : heap) : Prop :=
  forall r t, h !! r = Some t ->
    _backward t = noop \/
    exists out tout,
      closure_self (_backward t) = Some r /\
      closure_out (_backward t) = Some out /\
      r < out /\ h !! out = Some tout /\ r ∈ _children tout.

(** ** When [backward] returns *)

(** The nodes a closure mentions. *)
Definition closure_refs (c : closure) : list ref :=
  match c with
  | noop => []
  | add_backward self operand out | mul_backward self operand out =>
      [self; operand; out]
  | pow_backward self _ out | exp_backward self _ out
  | tanh_backward self _ out => [self; out]
  end.

(** Every closure mentions nodes of the heap only. *)
Definition closures_closed (h : heap) : Prop :=
  forall r t, h !! r = Some t ->
    forall x, x ∈ closure_refs (_backward t) -> x < List.length h.

(** The [**] a closure evaluates when it is called does not raise. *)
Definition closure_pow_ok (float_pow : float -> float -> result float)
    (h : heap) (c : closure) : Prop :=
  match c with
  | pow_backward self power _ =>
      forall a, holds h self a ->
        exists p, float_pow a (power - 1)%float = Ok p
  | tanh_backward _ value _ => exists sq, float_pow value 2%float = Ok sq
  | _ => True
  end.

(** Two heaps that differ in gradients only. *)
Definition same_structure (h h' : heap) : Prop := reset_all h' = reset_all h.

(** * Verification *)

(** ** Running the monad *)

Ltac munfold :=
  unfold mbind, M_bind, mret, M_ret, fmap, M_fmap, getattr, setattr, lift,
    raise, __init__ in *.

Lemma lookup_alloc (h : heap) t : (h ++ [t]) !! List.length h = Some t.
Proof. rewrite lookup_app_r by lia. by rewrite Nat.sub_diag. Qed.

Lemma insert_alloc (h : heap) t t' :
  <[List.length h := t']> (h ++ [t]) = h ++ [t'].
Proof. rewrite insert_app_r_alt by lia. by rewrite Nat.sub_diag. Qed.

Lemma lookup_old (h k : heap) r t : h !! r = Some t -> (h ++ k) !! r = Some t.
Proof. apply lookup_app_l_Some. Qed.

Ltac mstep :=
  repeat first
    [ rewrite lookup_alloc
    | rewrite insert_alloc
    | erewrite lookup_old by eassumption ];
  simpl.

Section Equations.

Variable math_exp : float -> result float.
Variable float_pow : float -> float -> result float.
Variable set_order : ref -> ref -> bool.

Lemma add_tensor_eq h self o ts to :
  h !! self = Some ts -> h !! o = Some to ->
  __add__ set_order self (PyTensor o) h =
    Ok (List.length h,
        installed h self ts (add_backward self o (List.length h))
          (value ts + value to) (set2 set_order self o)).
Proof.
  intros Hs Ho. unfold __add__, coerce. munfold.
  rewrite Hs, Ho. by mstep.
Qed.

Lemma mul_tensor_eq h self o ts to :
  h !! self = Some ts -> h !! o = Some to ->
  __mul__ set_order self (PyTensor o) h =
    Ok (List.length h,
        installed h self ts (mul_backward self o (List.length h))
          (value ts * value to) (set2 set_order self o)).
Proof.
  intros Hs Ho. unfold __mul__, coerce. munfold.
  rewrite Hs, Ho. by mstep.
Qed.

Lemma pow_eq h self power ts v :
  h !! self = Some ts -> float_pow (value ts) power = Ok v ->
  __pow__ float_pow self power h =
    Ok (List.length h,
        installed h self ts (pow_backward self power (List.length h)) v [self]).
Proof.
  intros Hs Hv. unfold __pow__. munfold.
  rewrite Hs, Hv. by mstep.
Qed.

Lemma exp_eq h self ts v :
  h !! self = Some ts -> math_exp (value ts) = Ok v ->
  exp math_exp self h =
    Ok (List.length h,
        installed h self ts (exp_backward self v (List.length h)) v [self]).
Proof.
  intros Hs Hv. unfold exp. munfold.
  rewrite Hs, Hv. by mstep.
Qed.

Lemma tanh_eq h self ts v :
  h !! self = Some ts -> tanh_value math_exp (value ts) = Ok v ->
  tanh math_exp self h =
    Ok (List.length h,
        installed h self ts (tanh_backward self v (List.length h)) v [self]).
Proof.
  intros Hs Hv. unfold tanh, tanh_value in *. munfold.
  rewrite Hs. destruct (math_exp (2 * value ts)) as [e|]; [|done].
  unfold mbind, result_mbind in Hv. simpl in Hv. rewrite Hv. by mstep.
Qed.

(** A plain-number operand is first wrapped in a leaf. *)
Lemma add_num_eq h self x :
  __add__ set_order self (PyNum x) h =
  __add__ set_order self (PyTensor (List.length h))
    (h ++ [mkTensor x [] 0 noop]).
Proof. reflexivity. Qed.

Lemma mul_num_eq h self x :
  __mul__ set_order self (PyNum x) h =
  __mul__ set_order self (PyTensor (List.length h))
    (h ++ [mkTensor x [] 0 noop]).
Proof. reflexivity. Qed.

(** Failures: a dangling reference, or the host function raising. *)
Lemma add_tensor_Ok h self o out h' :
  __add__ set_order self (PyTensor o) h = Ok (out, h') ->
  exists ts to, h !! self = Some ts /\ h !! o = Some to.
Proof.
  unfold __add__, coerce. munfold.
  destruct (h !! self) as [ts|]; [|done].
  destruct (h !! o) as [to|]; [|done]. eauto.
Qed.

Lemma mul_tensor_Ok h self o out h' :
  __mul__ set_order self (PyTensor o) h = Ok (out, h') ->
  exists ts to, h !! self = Some ts /\ h !! o = Some to.
Proof.
  unfold __mul__, coerce. munfold.
  destruct (h !! self) as [ts|]; [|done].
  destruct (h !! o) as [to|]; [|done]. eauto.
Qed.

Lemma pow_Ok h self power out h' :
  __pow__ float_pow self power h = Ok (out, h') ->
  exists ts v, h !! self = Some ts /\ float_pow (value ts) power = Ok v.
Proof.
  unfold __pow__. munfold.
  destruct (h !! self) as [ts|]; [|done].
  destruct (float_pow (value ts) power) as [v|] eqn:Hv; [|done]. eauto.
Qed.

Lemma exp_Ok h self out h' :
  exp math_exp self h = Ok (out, h') ->
  exists ts v, h !! self = Some ts /\ math_exp (value ts) = Ok v.
Proof.
  unfold exp. munfold.
  destruct (h !! self) as [ts|]; [|done].
  destruct (math_exp (value ts)) as [v|] eqn:Hv; [|done]. eauto.
Qed.

Lemma tanh_Ok h self out h' :
  tanh math_exp self h = Ok (out, h') ->
  exists ts v, h !! self = Some ts /\ tanh_value math_exp (value ts) = Ok v.
Proof.
  unfold tanh, tanh_value. munfold.
  destruct (h !! self) as [ts|]; [|done].
  destruct (math_exp (2 * value ts)) as [e|] eqn:He; [|done]. simpl.
  destruct (float_div (e - 1) (e + 1)) as [v|] eqn:Hv; [|done].
  intros _. exists ts, v. split; [done|].
  unfold mbind, result_mbind. by rewrite He.
Qed.

End Equations.

(** ** The shape of [installed] *)

Lemma installed_length h self ts rule v cs :
  List.length (installed h self ts rule v cs) = S (List.length h).
Proof.
  unfold installed. rewrite length_insert, length_app. simpl. lia.
Qed.

Lemma installed_out h self ts rule v cs :
  h !! self = Some ts ->
  installed h self ts rule v cs !! List.length h = Some (mkTensor v cs 0 noop).
Proof.
  intros Hs. apply lookup_lt_Some in Hs as Hlt. unfold installed.
  rewrite list_lookup_insert_ne by lia. apply lookup_alloc.
Qed.

Lemma installed_self h self ts rule v cs :
  h !! self = Some ts ->
  installed h self ts rule v cs !! self = Some (with_backward rule ts).
Proof.
  intros Hs. apply lookup_lt_Some in Hs as Hlt. unfold installed.
  apply list_lookup_insert_eq. rewrite length_app. lia.
Qed.

Lemma installed_other h self ts rule v cs r t :
  r <> self -> h !! r = Some t ->
  installed h self ts rule v cs !! r = Some t.
Proof.
  intros Hne Hr. unfold installed.
  rewrite list_lookup_insert_ne by done. by apply lookup_old.
Qed.

Lemma bind_Ok {A B} (m : M A) (f : A -> M B) h r :
  (m ≫= f) h = Ok r -> exists a h1, m h = Ok (a, h1) /\ f a h1 = Ok r.
Proof.
  unfold mbind, M_bind. destruct (m h) as [[a h1]|]; [|done]. eauto.
Qed.

Lemma fmap_Ok {A B} (m : M A) (f : A -> B) h b h' :
  (f <$> m) h = Ok (b, h') -> exists a, m h = Ok (a, h') /\ b = f a.
Proof.
  unfold fmap, M_fmap. destruct (m h) as [[a h1]|]; [|done].
  intros [= <- <-]. eauto.
Qed.

(** ** What an operation leaves untouched *)

Lemma same_data_refl t : same_data t t.
Proof. by repeat split. Qed.

Lemma preserves_refl h : preserves h h.
Proof. split; [lia|]. intros r t Hr. eauto using same_data_refl. Qed.

Lemma preserves_trans h1 h2 h3 :
  preserves h1 h2 -> preserves h2 h3 -> preserves h1 h3.
Proof.
  intros [Hl1 H1] [Hl2 H2]. split; [lia|].
  intros r t Hr. destruct (H1 r t Hr) as (t' & Hr' & E1 & E2 & E3).
  destruct (H2 r t' Hr') as (t'' & Hr'' & F1 & F2 & F3).
  exists t''. split; [done|]. unfold same_data. by rewrite F1, F2, F3.
Qed.

Lemma preserves_alloc h t : preserves h (h ++ [t]).
Proof.
  split; [rewrite length_app; lia|].
  intros r t' Hr. exists t'. split; [by apply lookup_old | apply same_data_refl].
Qed.

Lemma preserves_installed h self ts rule v cs :
  h !! self = Some ts -> preserves h (installed h self ts rule v cs).
Proof.
  intros Hs. split; [rewrite installed_length; lia|].
  intros r t Hr. destruct (decide (r = self)) as [Heq|Hne].
  - subst r. rewrite Hs in Hr. injection Hr as <-.
    exists (with_backward rule ts).
    split; [by apply installed_self | by repeat split].
  - exists t. split; [by apply installed_other | apply same_data_refl].
Qed.

Lemma set2_elem set_order a b c : c ∈ set2 set_order a b -> c = a \/ c = b.
Proof.
  unfold set2. destruct (decide (a = b)); [|destruct (set_order a b)];
    set_solver.
Qed.

Section Shape.

Variable math_exp : float -> result float.
Variable float_pow : float -> float -> result float.
Variable set_order : ref -> ref -> bool.

(** A primitive operation, run on [h], wraps a plain-number operand (giving
    [h0]) and then appends the result to [h0] and stores its closure in
    [self]. *)
Lemma primitive_shape op self h out h' :
  primitive op = true ->
  perform math_exp float_pow set_order op self h = Ok (out, h') ->
  exists h0 ts rule v cs,
    (h0 = h \/ exists x, h0 = h ++ [mkTensor x [] 0 noop]) /\
    preserves h h0 /\ h0 !! self = Some ts /\
    (forall t, h !! self = Some t -> t = ts) /\
    out = List.length h0 /\
    h' = installed h0 self ts rule v cs /\
    closure_out rule = Some out /\ closure_self rule = Some self /\
    (forall c, c ∈ cs -> c < List.length h0).
Proof.
  intros Hp Hrun. destruct op as [operand| |operand|operand|power|operand| |];
    try discriminate Hp; simpl in Hrun.
  - destruct operand as [x|o|]; [rewrite add_num_eq in Hrun| |done];
      destruct (add_tensor_Ok _ _ _ _ _ _ Hrun) as (ts & to & Hs & Ho);
      rewrite (add_tensor_eq _ _ _ _ _ _ Hs Ho) in Hrun;
      injection Hrun as <- <-;
      eexists _, ts, _, _, _; split_and!; try done.
    + right. by exists x.
    + apply preserves_alloc.
    + intros t Ht. apply (lookup_old _ [mkTensor x [] 0 noop]) in Ht. congruence.
    + intros c Hc. apply set2_elem in Hc as [-> | ->]; by eapply lookup_lt_Some.
    + by left.
    + apply preserves_refl.
    + congruence.
    + intros c Hc. apply set2_elem in Hc as [-> | ->]; by eapply lookup_lt_Some.
  - destruct operand as [x|o|]; [rewrite mul_num_eq in Hrun| |done];
      destruct (mul_tensor_Ok _ _ _ _ _ _ Hrun) as (ts & to & Hs & Ho);
      rewrite (mul_tensor_eq _ _ _ _ _ _ Hs Ho) in Hrun;
      injection Hrun as <- <-;
      eexists _, ts, _, _, _; split_and!; try done.
    + right. by exists x.
    + apply preserves_alloc.
    + intros t Ht. apply (lookup_old _ [mkTensor x [] 0 noop]) in Ht. congruence.
    + intros c Hc. apply set2_elem in Hc as [-> | ->]; by eapply lookup_lt_Some.
    + by left.
    + apply preserves_refl.
    + congruence.
    + intros c Hc. apply set2_elem in Hc as [-> | ->]; by eapply lookup_lt_Some.
  - destruct (pow_Ok _ _ _ _ _ _ Hrun) as (ts & v & Hs & Hv).
    rewrite (pow_eq _ _ _ _ _ _ Hs Hv) in Hrun. injection Hrun as <- <-.
    eexists _, ts, _, _, _; split_and!; try done.
    + by left.
    + apply preserves_refl.
    + congruence.
    + intros c Hc. apply list_elem_of_singleton in Hc as ->. by eapply lookup_lt_Some.
  - destruct (exp_Ok _ _ _ _ _ Hrun) as (ts & v & Hs & Hv).
    rewrite (exp_eq _ _ _ _ _ Hs Hv) in Hrun. injection Hrun as <- <-.
    eexists _, ts, _, _, _; split_and!; try done.
    + by left.
    + apply preserves_refl.
    + congruence.
    + intros c Hc. apply list_elem_of_singleton in Hc as ->. by eapply lookup_lt_Some.
  - destruct (tanh_Ok _ _ _ _ _ Hrun) as (ts & v & Hs & Hv).
    rewrite (tanh_eq _ _ _ _ _ Hs Hv) in Hrun. injection Hrun as <- <-.
    eexists _, ts, _, _, _; split_and!; try done.
    + by left.
    + apply preserves_refl.
    + congruence.
    + intros c Hc. apply list_elem_of_singleton in Hc as ->. by eapply lookup_lt_Some.
Qed.

End Shape.

Section Frame.

Variable math_exp : float -> result float.
Variable float_pow : float -> float -> result float.
Variable set_order : ref -> ref -> bool.

Local Abbreviation perform := (perform math_exp float_pow set_order).

Lemma primitive_preserves op self h out h' :
  primitive op = true -> perform op self h = Ok (out, h') -> preserves h h'.
Proof.
  intros Hp Hrun.
  destruct (primitive_shape _ _ _ _ _ _ _ _ Hp Hrun)
    as (h0 & ts & rule & v & cs & _ & Hpre & Hs & _ & _ & -> & _ & _ & _).
  eauto using preserves_trans, preserves_installed.
Qed.

(** [neg], [sub] and [div] end in a primitive operation on [self], after
    the operand has been negated or inverted. *)
Lemma derived_shape op self h out h' :
  perform op self h = Ok (out, h') ->
  exists op' h1,
    primitive op' = true /\ preserves h h1 /\
    (h1 = h \/ exists op0 r a,
       primitive op0 = true /\ perform op0 r h = Ok (a, h1)) /\
    perform op' self h1 = Ok (out, h').
Proof.
  intros Hrun.
  destruct op as [operand| |operand|operand|power|operand| |].
  - exists (Add operand), h. split_and!; auto using preserves_refl.
  - exists (Mul (PyNum (-1))), h. split_and!; auto using preserves_refl.
  - simpl in Hrun. unfold __sub__ in Hrun.
    apply bind_Ok in Hrun as (negated & h1 & Hneg & Hadd).
    exists (Add negated), h1.
    destruct operand as [x|r|]; simpl in Hneg.
    + injection Hneg as <- <-. split_and!; auto using preserves_refl.
    + apply fmap_Ok in Hneg as (a & Hneg & ->). split_and!; [done| | |done].
      * by apply (primitive_preserves (Mul (PyNum (-1))) r _ a).
      * right. by exists (Mul (PyNum (-1))), r, a.
    + done.
  - exists (Mul operand), h. split_and!; auto using preserves_refl.
  - exists (Pow power), h. split_and!; auto using preserves_refl.
  - simpl in Hrun. unfold __truediv__ in Hrun.
    apply bind_Ok in Hrun as (inverse & h1 & Hinv & Hmul).
    exists (Mul inverse), h1.
    destruct operand as [x|r|]; simpl in Hinv.
    + apply fmap_Ok in Hinv as (a & Hinv & ->).
      unfold lift in Hinv. destruct (float_pow x (-1)); [|done].
      injection Hinv as <- <-. split_and!; auto using preserves_refl.
    + apply fmap_Ok in Hinv as (a & Hinv & ->). split_and!; [done| | |done].
      * by apply (primitive_preserves (Pow (-1)) r _ a).
      * right. by exists (Pow (-1)), r, a.
    + done.
  - exists Exp, h. split_and!; auto using preserves_refl.
  - exists Tanh, h. split_and!; auto using preserves_refl.
Qed.

(** The part of purity that holds: no operation changes the value, the
    operands or the gradient of a node that exists. *)
Lemma perform_preserves op self h out h' :
  perform op self h = Ok (out, h') -> preserves h h'.
Proof.
  intros Hrun.
  destruct (derived_shape _ _ _ _ _ Hrun) as (op' & h1 & Hp & Hpre & _ & Hrun').
  eauto using preserves_trans, primitive_preserves.
Qed.

(** The result is a node that did not exist, and it comes out with the
    default closure; the closure over the result is stored in [self]. *)
Lemma perform_shape op self h out h' ts :
  perform op self h = Ok (out, h') ->
  h !! self = Some ts ->
  List.length h <= out /\
  (exists v cs, h' !! out = Some (mkTensor v cs 0 noop)) /\
  (exists ts', h' !! self = Some ts' /\ same_data ts ts' /\
     closure_out (_backward ts') = Some out /\
     closure_self (_backward ts') = Some self).
Proof.
  intros Hrun Hs.
  destruct (derived_shape _ _ _ _ _ Hrun) as (op' & h1 & Hp & Hpre & _ & Hrun').
  destruct (primitive_shape _ _ _ _ _ _ _ _ Hp Hrun')
    as (h0 & ts0 & rule & v & cs & _ & Hpre0 & Hs0 & _ & -> & -> & Hout & Hself & _).
  pose proof (preserves_trans _ _ _ Hpre Hpre0) as [Hlen Hdata].
  destruct (Hdata _ _ Hs) as (t' & Ht' & Hsame).
  assert (t' = ts0) as -> by congruence.
  split_and!; [done|..].
  - exists v, cs. by apply installed_out.
  - exists (with_backward rule ts0). split_and!; [by apply installed_self|..]; done.
Qed.

(** A property of heaps that survives wrapping a number in a leaf and
    installing a result survives every operation. *)
Lemma perform_invariant (I : heap -> Prop) op self h out h' :
  (forall h x, I h -> I (h ++ [mkTensor x [] 0 noop])) ->
  (forall h self ts rule v cs,
     I h -> h !! self = Some ts ->
     (forall c, c ∈ cs -> c < List.length h) ->
     I (installed h self ts rule v cs)) ->
  I h ->
  perform op self h = Ok (out, h') ->
  I h'.
Proof.
  intros Hleaf Hinst.
  assert (forall op self h out h', primitive op = true -> I h ->
            perform op self h = Ok (out, h') -> I h') as Hprim.
  { clear op self h out h'. intros op self h out h' Hp Hh Hrun.
    destruct (primitive_shape _ _ _ _ _ _ _ _ Hp Hrun)
      as (h0 & ts & rule & v & cs & Hh0 & _ & Hs & _ & _ & -> & _ & _ & Hcs).
    apply Hinst; [|done|done].
    destruct Hh0 as [->|[x ->]]; [done|by apply Hleaf]. }
  intros Hh Hrun.
  destruct (derived_shape _ _ _ _ _ Hrun)
    as (op' & h1 & Hp & _ & [->|(op0 & r & a & Hp0 & Hrun0)] & Hrun'); eauto.
Qed.

End Frame.

(** ** Where the closure is stored *)

(** C1. The specification has each of [add], [mul], [pow], [exp], [tanh]
    bind the local-derivative rule to the node it creates.  The code assigns
    [self._backward] instead of [out._backward]: whenever one of these
    operations returns, the node it created still carries [lambda: None],
    calling that closure changes nothing, and the closure that reads
    [out.grad] sits in the left operand [self]. *)
Theorem result_node_keeps_default_backward
    math_exp float_pow set_order op self h out h' ts :
  primitive op = true ->
  h !! self = Some ts ->
  perform math_exp float_pow set_order op self h = Ok (out, h') ->
  (exists t, h' !! out = Some t /\ _backward t = noop /\
     call float_pow (_backward t) h' = Ok (tt, h')) /\
  (exists ts', h' !! self = Some ts' /\
     closure_out (_backward ts') = Some out /\
     closure_self (_backward ts') = Some self).
Proof.
  intros _ Hs Hrun.
  destruct (perform_shape _ _ _ _ _ _ _ _ _ Hrun Hs)
    as (_ & (v & cs & Hout) & (ts' & Hs' & _ & Ho & Hc)).
  split.
  - exists (mkTensor v cs 0 noop). by split_and!.
  - exists ts'. by split_and!.
Qed.

Lemma result_node_keeps_default_backward_witness :
  let h := [mkTensor 2 [] 0 noop; mkTensor 3 [] 0 noop] in
  let h' := [mkTensor 2 [] 0 (add_backward 0 1 2); mkTensor 3 [] 0 noop;
             mkTensor 5 [0; 1] 0 noop] in
  __add__ (fun _ _ => true) 0 (PyTensor 1) h = Ok (2, h') /\
  (exists t, h' !! 2 = Some t /\ _backward t = noop /\
     call (fun x _ => Ok x) (_backward t) h' = Ok (tt, h')) /\
  (exists ts', h' !! 0 = Some ts' /\
     closure_out (_backward ts') = Some 2 /\
     closure_self (_backward ts') = Some 0).
Proof.
  split; [reflexivity|].
  apply (result_node_keeps_default_backward
           (fun x => Ok x) (fun x _ => Ok x) (fun _ _ => true)
           (Add (PyTensor 1)) 0
           [mkTensor 2 [] 0 noop; mkTensor 3 [] 0 noop] 2 _
           (mkTensor 2 [] 0 noop)); reflexivity.
Defined.

(** C3. The specification has the eight operations leave every field of
    every existing node alone.  Value, operands and gradient are left alone
    ([perform_preserves]), but the closure is not: each operation, derived
    ones included, overwrites [self._backward] with a closure over the node
    it has just created, so a node that still had the default closure comes
    out with another one. *)
Theorem operation_rebinds_backward_of_self
    math_exp float_pow set_order op self h out h' ts :
  h !! self = Some ts ->
  _backward ts = noop ->
  perform math_exp float_pow set_order op self h = Ok (out, h') ->
  exists ts', h' !! self = Some ts' /\ same_data ts ts' /\
    _backward ts' <> _backward ts /\
    closure_out (_backward ts') = Some out /\ List.length h <= out.
Proof.
  intros Hs Hnoop Hrun.
  destruct (perform_shape _ _ _ _ _ _ _ _ _ Hrun Hs)
    as (Hlen & _ & (ts' & Hs' & Hsame & Ho & _)).
  exists ts'. split_and!; try done.
  rewrite Hnoop. intros E. by rewrite E in Ho.
Qed.

Lemma operation_rebinds_backward_of_self_witness :
  let h := [mkTensor 1 [] 0 noop] in
  let h' := [mkTensor 1 [] 0 (add_backward 0 1 2); mkTensor 2 [] 0 noop;
             mkTensor 3 [0; 1] 0 noop] in
  __add__ (fun _ _ => true) 0 (PyNum 2) h = Ok (2, h') /\
  exists ts', h' !! 0 = Some ts' /\ same_data (mkTensor 1 [] 0 noop) ts' /\
    _backward ts' <> noop /\
    closure_out (_backward ts') = Some 2 /\ 1 <= 2.
Proof.
  split; [reflexivity|].
  apply (operation_rebinds_backward_of_self
           (fun x => Ok x) (fun x _ => Ok x) (fun _ _ => true)
           (Add (PyNum 2)) 0 [mkTensor 1 [] 0 noop] 2 _
           (mkTensor 1 [] 0 noop)); reflexivity.
Defined.

(** ** Scenarios *)

Lemma float_neq (x y : float) : Prim2SF x <> Prim2SF y -> x <> y.
Proof. congruence. Qed.

(** C5. Product rule: with [a.value = 2.0] and [b.value = 3.0], after
    [z = a * b] and [z.backward()], [a.grad] is [3.0] and [b.grad] is [2.0],
    whatever the iteration order of [z]'s operand set. *)
Theorem product_rule float_pow set_order recursion_limit :
  2 <= recursion_limit ->
  outcome (product_scenario float_pow set_order recursion_limit 2 3 []) =
    Ok (3%float, 2%float).
Proof.
  intros Hlim. destruct recursion_limit as [|[|n]]; [lia|lia|].
  vm_compute. destruct (set_order 0 1); reflexivity.
Qed.

Lemma product_rule_witness :
  2 <= 1000 /\
  outcome (product_scenario (fun x _ => Ok x) (fun _ _ => true) 1000 2 3 []) =
    Ok (3%float, 2%float).
Proof.
  split; [lia|]. apply (product_rule (fun x _ => Ok x) (fun _ _ => true) 1000). lia.
Defined.

(** C6. Fan-out: for a leaf [x] and [y = x + x], [y.backward()] leaves
    [x.grad] at [2.0]: each use of the operand contributes once. *)
Theorem fan_out_gradient float_pow set_order recursion_limit v :
  2 <= recursion_limit ->
  outcome (fan_out_scenario float_pow set_order recursion_limit v []) =
    Ok 2%float.
Proof.
  intros Hlim. destruct recursion_limit as [|[|n]]; [lia|lia|].
  reflexivity.
Qed.

Lemma fan_out_gradient_witness :
  2 <= 1000 /\
  outcome (fan_out_scenario (fun x _ => Ok x) (fun _ _ => true) 1000 7 []) =
    Ok 2%float.
Proof.
  split; [lia|].
  apply (fan_out_gradient (fun x _ => Ok x) (fun _ _ => true) 1000 7). lia.
Defined.

(** C2. Diamond: for [x.value = 2.0] the specification expects
    [x.grad == 2*2.0 + 3*2.0**2 = 16.0].  The closures are stored in the
    left operands, so [w]'s and [z]'s own closures are the default one and
    the closure that feeds [y] and [z] from [w] runs only when [y] is
    reached: [x.grad] ends at [12.0] when [y] comes before [z] in reverse
    order and at [0.0] otherwise, never at [16.0]. *)
Theorem diamond_gradient float_pow set_order recursion_limit :
  4 <= recursion_limit ->
  exists g,
    outcome (diamond_scenario float_pow set_order recursion_limit 2 []) = Ok g /\
    (g = 0%float \/ g = 12%float) /\
    g <> (2 * 2 + 3 * (2 * 2))%float.
Proof.
  intros Hlim. destruct recursion_limit as [|[|[|[|n]]]]; [lia..|].
  vm_compute.
  destruct (set_order 1 3), (set_order 2 0);
    eexists; (split; [reflexivity|]); (split; [by auto|]);
    apply float_neq; vm_compute; discriminate.
Qed.

Lemma diamond_gradient_witness :
  4 <= 1000 /\
  exists g,
    outcome (diamond_scenario (fun x _ => Ok x) (fun _ _ => true) 1000 2 []) = Ok g /\
    (g = 0%float \/ g = 12%float) /\
    g <> (2 * 2 + 3 * (2 * 2))%float.
Proof.
  split; [lia|].
  apply (diamond_gradient (fun x _ => Ok x) (fun _ _ => true) 1000). lia.
Defined.

(** Each sum evaluated alone: from one and the same heap, [c + a] and
    [a + c] are the same computation, and on a fresh leaf of value [v] the
    forward value is [v + c] and the gradient on the leaf after
    [backward()] from the result is [1.0]. *)
Lemma lifted_scalar_commutes float_pow set_order recursion_limit h a c v :
  2 <= recursion_limit ->
  value_and_gradient float_pow recursion_limit a
      (py_add set_order (PyNum c) (PyTensor a)) h =
    value_and_gradient float_pow recursion_limit a
      (py_add set_order (PyTensor a) (PyNum c)) h /\
  outcome (on_fresh_leaf float_pow recursion_limit v
             (fun a => py_add set_order (PyNum c) (PyTensor a)) []) =
    Ok ((v + c)%float, 1%float) /\
  outcome (on_fresh_leaf float_pow recursion_limit v
             (fun a => py_add set_order (PyTensor a) (PyNum c)) []) =
    Ok ((v + c)%float, 1%float).
Proof.
  intros Hlim. split; [reflexivity|].
  destruct recursion_limit as [|[|n]]; [lia|lia|].
  split; vm_compute; destruct (set_order 0 1); reflexivity.
Qed.

Lemma lifted_scalar_commutes_witness :
  let run := value_and_gradient (fun x _ => Ok x) 1000 0 in
  let fresh := on_fresh_leaf (fun x _ => Ok x) 1000 3 in
  let add := py_add (fun _ _ => true) in
  2 <= 1000 /\
  run (add (PyNum 5) (PyTensor 0)) [mkTensor 3 [] 0 noop] =
    run (add (PyTensor 0) (PyNum 5)) [mkTensor 3 [] 0 noop] /\
  outcome (fresh (fun a => add (PyNum 5) (PyTensor a)) []) = Ok (8%float, 1%float) /\
  outcome (fresh (fun a => add (PyTensor a) (PyNum 5)) []) = Ok (8%float, 1%float).
Proof.
  split; [lia|].
  apply (lifted_scalar_commutes (fun x _ => Ok x) (fun _ _ => true) 1000
           [mkTensor 3 [] 0 noop] 0 5 3). lia.
Defined.

(** C7. Lifted scalars do not commute once both sums live on one leaf.
    With [a = Tensor(v)] and both [c + a] and [a + c] built on it, in
    either order, the two results have the same forward value [v + c], but
    [backward()] from the sum built first leaves [a.grad] at [0.0] while
    [backward()] from the sum built second gives [1.0]: building the second
    sum stores its closure in [a._backward] over the closure of the first,
    so the first result no longer reaches [a]. *)
Theorem lifted_scalar_gradients_differ float_pow set_order recursion_limit v c :
  2 <= recursion_limit ->
  let left a := py_add set_order (PyNum c) (PyTensor a) in
  let right a := py_add set_order (PyTensor a) (PyNum c) in
  let gradient_from := gradient_from float_pow recursion_limit in
  (exists a l r h,
     build_both v left right [] = Ok ((a, PyTensor l, PyTensor r), h) /\
     holds h l (v + c) /\ holds h r (v + c) /\
     outcome (gradient_from a (PyTensor l) h) = Ok 0%float /\
     outcome (gradient_from a (PyTensor r) h) = Ok 1%float) /\
  (exists a r l h,
     build_both v right left [] = Ok ((a, PyTensor r, PyTensor l), h) /\
     holds h r (v + c) /\ holds h l (v + c) /\
     outcome (gradient_from a (PyTensor r) h) = Ok 0%float /\
     outcome (gradient_from a (PyTensor l) h) = Ok 1%float).
Proof.
  intros Hlim. destruct recursion_limit as [|[|n]]; [lia|lia|].
  split; exists 0, 2, 4; vm_compute;
    destruct (set_order 0 1), (set_order 0 3);
    eexists; repeat split; reflexivity.
Qed.

Lemma lifted_scalar_gradients_differ_witness :
  let left a := py_add (fun _ _ => true) (PyNum 5) (PyTensor a) in
  let right a := py_add (fun _ _ => true) (PyTensor a) (PyNum 5) in
  let gradient_from := gradient_from (fun x _ => Ok x) 1000 in
  2 <= 1000 /\
  (exists a l r h,
     build_both 3 left right [] = Ok ((a, PyTensor l, PyTensor r), h) /\
     holds h l (3 + 5) /\ holds h r (3 + 5) /\
     outcome (gradient_from a (PyTensor l) h) = Ok 0%float /\
     outcome (gradient_from a (PyTensor r) h) = Ok 1%float) /\
  (exists a r l h,
     build_both 3 right left [] = Ok ((a, PyTensor r, PyTensor l), h) /\
     holds h r (3 + 5) /\ holds h l (3 + 5) /\
     outcome (gradient_from a (PyTensor r) h) = Ok 0%float /\
     outcome (gradient_from a (PyTensor l) h) = Ok 1%float).
Proof.
  split; [lia|].
  apply (lifted_scalar_gradients_differ (fun x _ => Ok x) (fun _ _ => true) 1000 3 5).
  lia.
Defined.

(** ** Operands that are neither nodes nor numbers *)

(** C9 as stated: such an operand makes [add] fail with an "unsupported
    operand type" error.  It does not: the operation has no type check, and
    what fails is the attribute access [operand.value]. *)
Lemma unsupported_operand_counterexample :
  ~ (exists msg,
       __add__ (fun _ _ => true) 0 PyOther [mkTensor 1 [] 0 noop] =
         Raise (TypeError msg)).
Proof. intros [msg H]. discriminate H. Qed.

(** C9, amended. For every operand that is neither a node nor a plain number
    and has no attribute [value], [add] and [mul] fail at the call, before
    any node is created or changed, with an [AttributeError] for [value]. *)
Theorem unsupported_operand_attribute_error set_order self h :
  __add__ set_order self PyOther h = Raise (AttributeError "value") /\
  __mul__ set_order self PyOther h = Raise (AttributeError "value").
Proof. split; reflexivity. Qed.

(** ** Resetting gradients and running [backward] again *)

Lemma reset_all_zero_grad h : Forall zero_grad h -> reset_all h = h.
Proof.
  unfold reset_all. induction 1 as [|t h Ht _ IH]; [done|].
  rewrite fmap_cons, IH. f_equal. destruct t. unfold zero_grad in Ht.
  simpl in Ht. by subst.
Qed.

Lemma reset_all_setattr_grad h r t g :
  h !! r = Some t -> reset_all (<[r := with_grad g t]> h) = reset_all h.
Proof.
  intros Hr. unfold reset_all. rewrite list_fmap_insert.
  apply list_insert_id. by rewrite list_lookup_fmap, Hr.
Qed.

Section Reset.

Variable float_pow : float -> float -> result float.
Variable recursion_limit : nat.

Lemma add_to_grad_reset target delta h h' :
  add_to_grad target delta h = Ok (tt, h') -> reset_all h' = reset_all h.
Proof.
  unfold add_to_grad. munfold.
  destruct (h !! target) as [t|] eqn:Ht; [|done]. simpl. rewrite Ht.
  intros [= <-]. by apply reset_all_setattr_grad.
Qed.

Lemma getattr_Ok {A} (field : Tensor -> A) r h a h' :
  getattr field r h = Ok (a, h') -> h' = h.
Proof. unfold getattr. destruct (h !! r); [|done]. by intros [= _ <-]. Qed.

Lemma lift_Ok {A} (x : result A) h a h' : lift x h = Ok (a, h') -> h' = h.
Proof. unfold lift. destruct x; [|done]. by intros [= _ <-]. Qed.

(** Destructs a successful run of a sequence of attribute reads, host
    calls and gradient updates into its steps. *)
Ltac steps H :=
  repeat match type of H with
  | (_ ≫= _) _ = Ok _ =>
      let a := fresh "a" in let k := fresh "k" in let Hm := fresh "Hm" in
      apply bind_Ok in H as (a & k & Hm & H);
      first [ apply getattr_Ok in Hm as ->
            | apply lift_Ok in Hm as ->
            | destruct a; apply add_to_grad_reset in Hm ]
  end.

(** Calling a closure changes gradients only. *)
Lemma call_reset c h h' :
  call float_pow c h = Ok (tt, h') -> reset_all h' = reset_all h.
Proof.
  intros H. destruct c; simpl in H.
  - by injection H as <-.
  - steps H. apply add_to_grad_reset in H. congruence.
  - steps H. apply add_to_grad_reset in H. congruence.
  - steps H. by apply add_to_grad_reset in H.
  - steps H. by apply add_to_grad_reset in H.
  - steps H. by apply add_to_grad_reset in H.
Qed.

Lemma for_backward_reset order h h' :
  for_ order (fun node => rule ← getattr _backward node; call float_pow rule) h
    = Ok (tt, h') ->
  reset_all h' = reset_all h.
Proof.
  revert h. induction order as [|node order IH]; intros h H; simpl in H.
  - by injection H as <-.
  - apply bind_Ok in H as ([] & h1 & Hnode & H).
    apply bind_Ok in Hnode as (rule & h0 & Hget & Hcall).
    apply getattr_Ok in Hget as ->. apply call_reset in Hcall.
    rewrite (IH _ H). done.
Qed.

Lemma topological_sort_heap T h order h' :
  _topological_sort recursion_limit T h = Ok (order, h') -> h' = h.
Proof.
  unfold _topological_sort.
  destruct (_sort recursion_limit h T (∅, [])); [|done].
  by intros [= _ <-].
Qed.

(** [backward] changes gradients only. *)
Lemma backward_reset T h h' :
  backward float_pow recursion_limit T h = Ok (tt, h') ->
  reset_all h' = reset_all h.
Proof.
  unfold backward. intros H.
  apply bind_Ok in H as ([] & h0 & Hseed & H).
  apply bind_Ok in H as (order & h1 & Hsort & H).
  apply topological_sort_heap in Hsort as ->.
  apply for_backward_reset in H. rewrite H.
  unfold setattr in Hseed. destruct (h !! T) as [t|] eqn:Ht; [|done].
  injection Hseed as <-. by apply reset_all_setattr_grad.
Qed.

Lemma backward_after_reset T h h1 :
  Forall zero_grad h ->
  backward float_pow recursion_limit T h = Ok (tt, h1) ->
  backward float_pow recursion_limit T (reset_all h1) = Ok (tt, h1).
Proof.
  intros Hzero Hrun.
  by rewrite (backward_reset _ _ _ Hrun), (reset_all_zero_grad _ Hzero).
Qed.

End Reset.

(** Construction never writes a gradient: [__init__] sets it to [0.0]. *)
Lemma constructed_zero_grad math_exp float_pow set_order h :
  constructed math_exp float_pow set_order h -> Forall zero_grad h.
Proof.
  induction 1 as [|h v r h' _ IH Hleaf|h op self out h' _ IH _ Hrun].
  - constructor.
  - injection Hleaf as <- <-. apply Forall_app. split; [done|].
    by apply Forall_singleton.
  - apply (perform_invariant math_exp float_pow set_order (Forall zero_grad)
             op self h out h'); [| |done|done].
    + intros k x Hk. apply Forall_app. split; [done|]. by apply Forall_singleton.
    + intros k s ts rule w cs Hk Hs _. unfold installed. apply Forall_insert.
      * apply Forall_app. split; [done|]. by apply Forall_singleton.
      * by apply (Forall_lookup_1 _ _ _ _ Hk Hs).
Qed.

(** C8. Idempotent reset: on a graph as the operations built it, once
    [T.backward()] has run, setting [grad = 0.0] on every node and running
    [T.backward()] again returns, with exactly the gradients of the first
    run on every node. *)
Theorem idempotent_reset math_exp float_pow set_order recursion_limit h T h1 :
  constructed math_exp float_pow set_order h ->
  backward float_pow recursion_limit T h = Ok (tt, h1) ->
  backward float_pow recursion_limit T (reset_all h1) = Ok (tt, h1).
Proof.
  intros Hbuilt. apply backward_after_reset.
  by apply (constructed_zero_grad math_exp float_pow set_order).
Qed.

Lemma idempotent_reset_witness :
  let h := [mkTensor 2 [] 0 (mul_backward 0 1 2); mkTensor 3 [] 0 noop;
            mkTensor 6 [0; 1] 0 noop] in
  let h1 := [mkTensor 2 [] 3 (mul_backward 0 1 2); mkTensor 3 [] 2 noop;
             mkTensor 6 [0; 1] 1 noop] in
  constructed (fun x => Ok x) (fun x _ => Ok x) (fun _ _ => true) h /\
  backward (fun x _ => Ok x) 1000 2 h = Ok (tt, h1) /\
  backward (fun x _ => Ok x) 1000 2 (reset_all h1) = Ok (tt, h1).
Proof.
  assert (constructed (fun x => Ok x) (fun x _ => Ok x) (fun _ _ => true)
            [mkTensor 2 [] 0 (mul_backward 0 1 2); mkTensor 3 [] 0 noop;
             mkTensor 6 [0; 1] 0 noop]) as Hbuilt.
  { apply (constructed_op _ _ _
             [mkTensor 2 [] 0 noop; mkTensor 3 [] 0 noop]
             (Mul (PyTensor 1)) 0 2); [|by eexists|reflexivity].
    apply (constructed_leaf _ _ _ [mkTensor 2 [] 0 noop] 3 1); [|reflexivity].
    apply (constructed_leaf _ _ _ [] 2 0); [|reflexivity].
    apply constructed_empty. }
  split; [exact Hbuilt|]. split; [reflexivity|].
  apply (idempotent_reset (fun x => Ok x) (fun x _ => Ok x) (fun _ _ => true)
           1000 _ 2 _ Hbuilt).
  reflexivity.
Defined.

(** ** The topological order *)

Lemma operands_first_snoc h order n :
  operands_first h order ->
  (forall o, operand_of h n o -> o ∈ order) ->
  operands_first h (order ++ [n]).
Proof.
  intros Hord Hn i m o Hi Hop.
  destruct (decide (i < List.length order)) as [Hlt|Hge].
  - rewrite lookup_app_l in Hi by done.
    destruct (Hord i m o Hi Hop) as (j & Hj & Hlook).
    exists j. split; [done|]. by apply lookup_app_l_Some.
  - rewrite lookup_app_r in Hi by lia.
    apply list_lookup_singleton_Some in Hi as [Hi <-].
    destruct (proj1 (list_elem_of_lookup _ _) (Hn o Hop)) as [j Hj].
    exists j. split; [apply lookup_lt_Some in Hj; lia|].
    by apply lookup_app_l_Some.
Qed.

Section TopologicalSort.

Variable h : heap.

(** The graph is acyclic: some rank strictly decreases along every operand
    edge.  Operands are nodes of the heap. *)
Variable rank : ref -> nat.
Hypothesis acyclic : forall n o, operand_of h n o -> rank o < rank n.
Hypothesis closed : forall n o, operand_of h n o -> is_Some (h !! o).

Lemma reachable_rank T n : reachable h T n -> rank n <= rank T.
Proof.
  induction 1 as [|a b c Hab _ IH]; [lia|].
  apply acyclic in Hab. lia.
Qed.

(** The loop [for child in node._children: _sort(child)], for any [f] that
    behaves on the children as [_sort] should. *)
Lemma for_children_spec f bound cs :
  (forall c V L, c ∈ cs -> sort_pre h rank c V L -> sort_post h c V L (f c (V, L))) ->
  forall V L,
    (forall c, c ∈ cs -> is_Some (h !! c) /\ rank c < bound) ->
    (forall v, v ∈ V -> v ∈ L \/ bound <= rank v) ->
    (forall x, x ∈ L -> x ∈ V) ->
    NoDup L ->
    operands_first h L ->
    loop_post h cs V L (for_children f cs (V, L)).
Proof.
  induction cs as [|c cs IH]; intros Hf V L Hcs Hvis Hsub Hnd Hord.
  - exists V, []. rewrite app_nil_r. split_and!; try done.
    + set_solver.
    + intros c Hc. by apply elem_of_nil in Hc.
    + intros x Hx. by apply elem_of_nil in Hx.
  - destruct (Hcs c) as [Hsome Hrank]; [by left|].
    destruct (Hf c V L) as (V1 & new1 & Heq & HV1 & Hin1 & Hnd1 & Hord1 & Hreach1).
    { by left. }
    { split_and!; try done. intros v Hv.
      destruct (Hvis v Hv); [by left|right; lia]. }
    simpl. rewrite Heq. simpl.
    destruct (IH (fun c' V' L' Hc' => Hf c' V' L' (list_elem_of_further _ _ _ Hc'))
                V1 (L ++ new1))
      as (V2 & new2 & Heq2 & HV2 & Hin2 & Hnd2 & Hord2 & Hreach2); try done.
    { intros c' Hc'. apply Hcs. by right. }
    { intros v Hv. apply HV1 in Hv as [Hv|Hv].
      - destruct (Hvis v Hv); [left; set_solver|by right].
      - left. set_solver. }
    { intros x Hx. apply HV1. apply elem_of_app in Hx as [Hx|Hx]; auto. }
    exists V2, (new1 ++ new2). rewrite app_assoc. split_and!; try done.
    + intros v. rewrite HV2, HV1, elem_of_app. tauto.
    + intros c' Hc'. apply elem_of_cons in Hc' as [->|Hc'].
      * set_solver.
      * by apply Hin2.
    + intros x Hx. apply elem_of_app in Hx as [Hx|Hx].
      * exists c. split; [by left|by apply Hreach1].
      * destruct (Hreach2 x Hx) as (c' & Hc' & Hr). exists c'.
        split; [by right|done].
Qed.

(** [_sort], at any depth above the rank of [n]. *)
Lemma sort_spec depth : forall n V L,
  rank n < depth -> sort_pre h rank n V L ->
  sort_post h n V L (_sort depth h n (V, L)).
Proof.
  induction depth as [|depth IH]; intros n V L Hdepth Hpre; [lia|].
  destruct Hpre as ([t Ht] & Hvis & Hsub & Hnd & Hord).
  simpl. destruct (decide (n ∈ V)) as [Hin|Hnotin].
  - exists V, []. rewrite app_nil_r. split_and!; try done.
    + set_solver.
    + destruct (Hvis n Hin); [done|lia].
    + intros x Hx. by apply elem_of_nil in Hx.
  - rewrite Ht.
    assert (forall c, c ∈ _children t -> operand_of h n c) as Hop.
    { intros c Hc. by exists t. }
    destruct (for_children_spec (_sort depth h) (rank n) (_children t))
      with (V := {[n]} ∪ V) (L := L)
      as (V' & new & Heq & HV' & Hin' & Hnd' & Hord' & Hreach'); try done.
    { intros c V0 L0 Hc Hpre0. apply IH; [|done].
      apply Hop, acyclic in Hc. lia. }
    { intros c Hc. split; [by apply (closed n), Hop|by apply acyclic, Hop]. }
    { intros v Hv. apply elem_of_union in Hv as [Hv|Hv].
      - apply elem_of_singleton in Hv as ->. right; lia.
      - destruct (Hvis v Hv); [by left|right; lia]. }
    { set_solver. }
    rewrite Heq. simpl.
    assert (n ∉ L ++ new) as Hfresh.
    { intros Hn. apply elem_of_app in Hn as [Hn|Hn]; [by apply Hnotin, Hsub|].
      destruct (Hreach' n Hn) as (c & Hc & Hr).
      apply reachable_rank in Hr. apply Hop, acyclic in Hc. lia. }
    exists V', (new ++ [n]). rewrite app_assoc. split_and!; try done.
    + intros v. rewrite HV', elem_of_app. set_solver.
    + set_solver.
    + apply NoDup_app. split_and!; [done| |apply NoDup_singleton].
      intros x Hx Hx'. apply list_elem_of_singleton in Hx' as ->. done.
    + apply operands_first_snoc; [done|].
      intros o (t' & Ht' & Ho). apply Hin'. congruence.
    + intros x Hx. apply elem_of_app in Hx as [Hx|Hx].
      * destruct (Hreach' x Hx) as (c & Hc & Hr).
        eapply rtc_l; [by apply Hop|done].
      * apply list_elem_of_singleton in Hx as ->. apply rtc_refl.
Qed.

End TopologicalSort.

(** [_topological_sort] on an acyclic graph. *)
Lemma topological_sort_spec (h : heap) (rank : ref -> nat)
    (recursion_limit : nat) (T : ref) :
  (forall n o, operand_of h n o -> rank o < rank n) ->
  (forall n o, operand_of h n o -> is_Some (h !! o)) ->
  is_Some (h !! T) ->
  rank T < recursion_limit ->
  exists order,
    _topological_sort recursion_limit T h = Ok (order, h) /\
    valid_order h T order.
Proof.
  intros Hacyclic Hclosed HT Hlimit.
  destruct (sort_spec h rank Hacyclic Hclosed recursion_limit T ∅ [])
    as (V' & order & Heq & _ & HT' & Hnd & Hord & Hreach); [done| |].
  { split_and!; [done|set_solver|set_solver|apply NoDup_nil_2|].
    intros i n o Hi. by rewrite lookup_nil in Hi. }
  simpl in *. exists order. unfold _topological_sort. rewrite Heq.
  split; [done|]. split_and!; try done.
  intros n. split; [apply Hreach|].
  apply (rtc_ind_r (fun n => n ∈ order) T); [done|].
  intros x y _ Hxy IH.
  apply list_elem_of_lookup in IH as [i Hi].
  destruct (Hord i x y Hi Hxy) as (j & _ & Hj).
  apply list_elem_of_lookup. by exists j.
Qed.

(** The graphs the operations build are acyclic: a node is allocated after
    its operands. *)
Lemma allocation_ordered_closed h n o :
  allocation_ordered h -> operand_of h n o -> is_Some (h !! o).
Proof.
  intros Hall Hop. pose proof (Hall n o Hop) as Hlt.
  destruct Hop as (t & Ht & _). apply lookup_lt_Some in Ht.
  apply lookup_lt_is_Some. lia.
Qed.

Lemma allocation_ordered_alloc h x :
  allocation_ordered h -> allocation_ordered (h ++ [mkTensor x [] 0 noop]).
Proof.
  intros Hall n o (t & Ht & Ho).
  apply lookup_app_Some in Ht as [Ht|[Hn Ht]].
  - apply Hall. by exists t.
  - apply list_lookup_singleton_Some in Ht as [_ <-]. by apply elem_of_nil in Ho.
Qed.

Lemma allocation_ordered_installed h self ts rule v cs :
  allocation_ordered h ->
  h !! self = Some ts ->
  (forall c, c ∈ cs -> c < List.length h) ->
  allocation_ordered (installed h self ts rule v cs).
Proof.
  intros Hall Hs Hcs n o (t & Ht & Ho).
  destruct (decide (n = self)) as [Heq|Hne].
  - subst n. rewrite (installed_self _ _ _ _ _ _ Hs) in Ht. injection Ht as <-.
    apply Hall. by exists ts.
  - unfold installed in Ht. rewrite list_lookup_insert_ne in Ht by done.
    apply lookup_app_Some in Ht as [Ht|[Hn Ht]].
    + apply Hall. by exists t.
    + apply list_lookup_singleton_Some in Ht as [Hz <-]. simpl in Ho.
      apply Hcs in Ho. lia.
Qed.

Lemma constructed_allocation_ordered math_exp float_pow set_order h :
  constructed math_exp float_pow set_order h -> allocation_ordered h.
Proof.
  induction 1 as [|h v r h' _ IH Hleaf|h op self out h' _ IH _ Hrun].
  - intros n o (t & Ht & _). by rewrite lookup_nil in Ht.
  - injection Hleaf as <- <-. by apply allocation_ordered_alloc.
  - apply (perform_invariant math_exp float_pow set_order allocation_ordered
             op self h out h');
      auto using allocation_ordered_alloc, allocation_ordered_installed.
Qed.

(** On every graph the operations build, [_topological_sort] returns a
    valid order from every node whose allocation index is below the
    recursion limit. *)
Lemma constructed_topological_order math_exp float_pow set_order h
    recursion_limit T :
  constructed math_exp float_pow set_order h ->
  is_Some (h !! T) ->
  T < recursion_limit ->
  exists order,
    _topological_sort recursion_limit T h = Ok (order, h) /\
    valid_order h T order.
Proof.
  intros Hbuilt HT Hlimit.
  apply constructed_allocation_ordered in Hbuilt.
  apply (topological_sort_spec h (fun n => n)); [done| |done|done].
  intros n o. by apply allocation_ordered_closed.
Qed.

(** C4. On an acyclic graph, [_topological_sort] from a terminal node [T]
    returns (the recursion limit permitting) an order in which every operand
    of a listed node sits at a strictly smaller index than the node, and in
    which the nodes reachable from [T] appear exactly once each, and no
    others. *)
Theorem topological_order_valid (h : heap) (rank : ref -> nat)
    (recursion_limit : nat) (T : ref) :
  (forall n o, operand_of h n o -> rank o < rank n) ->
  (forall n o, operand_of h n o -> is_Some (h !! o)) ->
  is_Some (h !! T) ->
  rank T < recursion_limit ->
  exists order,
    _topological_sort recursion_limit T h = Ok (order, h) /\
    (forall i n o, order !! i = Some n -> operand_of h n o ->
       exists j, j < i /\ order !! j = Some o) /\
    NoDup order /\
    (forall n, n ∈ order <-> reachable h T n).
Proof.
  intros Hacyclic Hclosed HT Hlimit.
  destruct (topological_sort_spec h rank recursion_limit T)
    as (order & Hrun & Hord & Hnd & Hreach); try done.
  by exists order.
Qed.

Lemma topological_order_valid_witness :
  let h := [mkTensor 2 [] 0 (mul_backward 0 0 1);
            mkTensor 4 [0] 0 (add_backward 1 2 3);
            mkTensor 4 [0] 0 noop;
            mkTensor 8 [2; 1] 0 noop] in
  _topological_sort 1000 3 h = Ok ([0; 2; 1; 3], h) /\
  exists order,
    _topological_sort 1000 3 h = Ok (order, h) /\
    (forall i n o, order !! i = Some n -> operand_of h n o ->
       exists j, j < i /\ order !! j = Some o) /\
    NoDup order /\
    (forall n, n ∈ order <-> reachable h 3 n).
Proof.
  split; [reflexivity|].
  apply (topological_order_valid _ (fun n => n) 1000 3).
  - intros n o (t & Ht & Ho).
    destruct n as [|[|[|[|n]]]]; simpl in Ht; [| | | |done];
      injection Ht as <-; simpl in Ho; set_solver by lia.
  - intros n o (t & Ht & Ho).
    destruct n as [|[|[|[|n]]]]; simpl in Ht; [| | | |done];
      injection Ht as <-; simpl in Ho;
      repeat (apply elem_of_cons in Ho as [->|Ho]; [by eexists|]);
      by apply elem_of_nil in Ho.
  - by eexists.
  - lia.
Defined.

(** ** Forward values *)

Lemma holds_lookup h r v :
  holds h r v <-> exists t, h !! r = Some t /\ value t = v.
Proof.
  unfold holds. destruct (h !! r) as [t|]; simpl; split.
  - intros [= <-]. by exists t.
  - intros (t' & [= <-] & <-). done.
  - done.
  - by intros (t' & ? & _).
Qed.

Lemma holds_preserved h h' r v : preserves h h' -> holds h r v -> holds h' r v.
Proof.
  intros [_ Hpre] Hr. apply holds_lookup in Hr as (t & Ht & <-).
  destruct (Hpre r t Ht) as (t' & Ht' & Hv & _).
  apply holds_lookup. by exists t'.
Qed.

Lemma holds_installed h self ts rule v cs :
  h !! self = Some ts -> holds (installed h self ts rule v cs) (List.length h) v.
Proof.
  intros Hs. unfold holds. by rewrite (installed_out _ _ _ _ _ _ Hs).
Qed.

Section Forward.

Variable math_exp : float -> result float.
Variable set_order : ref -> ref -> bool.

Lemma add_tensor_spec h a b va vb :
  holds h a va -> holds h b vb ->
  exists out h',
    __add__ set_order a (PyTensor b) h = Ok (out, h') /\
    preserves h h' /\ holds h' out (va + vb).
Proof.
  intros Ha Hb. apply holds_lookup in Ha as (ta & Ha & <-).
  apply holds_lookup in Hb as (tb & Hb & <-).
  eexists _, _. split; [by apply add_tensor_eq|].
  split; [by apply preserves_installed|by apply holds_installed].
Qed.

Lemma add_num_spec h a x va :
  holds h a va ->
  exists out h',
    __add__ set_order a (PyNum x) h = Ok (out, h') /\
    preserves h h' /\ holds h' out (va + x).
Proof.
  intros Ha. rewrite add_num_eq.
  destruct (add_tensor_spec (h ++ [mkTensor x [] 0 noop]) a (List.length h) va x)
    as (out & h' & Hrun & Hpre & Hout).
  - by apply (holds_preserved h), Ha; apply preserves_alloc.
  - unfold holds. by rewrite lookup_alloc.
  - exists out, h'. split_and!; [done| |done].
    eapply preserves_trans; [apply preserves_alloc|done].
Qed.

Lemma mul_num_spec h a x va :
  holds h a va ->
  exists out h',
    __mul__ set_order a (PyNum x) h = Ok (out, h') /\
    preserves h h' /\ holds h' out (va * x).
Proof.
  intros Ha. rewrite mul_num_eq.
  assert (holds (h ++ [mkTensor x [] 0 noop]) a va) as Ha'.
  { by apply (holds_preserved h), Ha; apply preserves_alloc. }
  apply holds_lookup in Ha' as (ta & Ha' & <-).
  eexists _, _. split; [apply mul_tensor_eq; [done|apply lookup_alloc]|].
  split.
  - eapply preserves_trans; [apply preserves_alloc|by apply preserves_installed].
  - by apply holds_installed.
Qed.

Lemma tanh_spec h a va :
  holds h a va ->
  match tanh_value math_exp va with
  | Ok v => exists out h',
      tanh math_exp a h = Ok (out, h') /\ preserves h h' /\ holds h' out v
  | Raise e => tanh math_exp a h = Raise e
  end.
Proof.
  intros Ha. apply holds_lookup in Ha as (ta & Ha & <-).
  destruct (tanh_value math_exp (value ta)) as [v|e] eqn:Hv.
  - eexists _, _. split; [by apply tanh_eq|].
    split; [by apply preserves_installed|by apply holds_installed].
  - unfold tanh, tanh_value in *. unfold mbind at 1, result_mbind in Hv.
    munfold. rewrite Ha.
    destruct (math_exp (2 * value ta)) as [x|]; simpl in *; [|congruence].
    by rewrite Hv.
Qed.

End Forward.

Lemma bind_run {A B} (m : M A) (f : A -> M B) h a h1 :
  m h = Ok (a, h1) -> (m ≫= f) h = f a h1.
Proof. unfold mbind, M_bind. by intros ->. Qed.

Lemma bind_raise {A B} (m : M A) (f : A -> M B) h e :
  m h = Raise e -> (m ≫= f) h = Raise e.
Proof. unfold mbind, M_bind. by intros ->. Qed.

Lemma fmap_run {A B} (m : M A) (f : A -> B) h a h1 :
  m h = Ok (a, h1) -> (f <$> m) h = Ok (f a, h1).
Proof. unfold fmap, M_fmap. by intros ->. Qed.

Lemma Forall2_holds_preserved h h' rs vs :
  preserves h h' -> Forall2 (holds h) rs vs -> Forall2 (holds h') rs vs.
Proof.
  intros Hpre Hrs. eapply Forall2_impl; [exact Hrs|].
  intros r v. by apply holds_preserved.
Qed.

Lemma neuron_in_preserved h h' n ws b :
  preserves h h' -> neuron_in h n ws b -> neuron_in h' n ws b.
Proof.
  intros Hpre [Hw Hb].
  split; eauto using Forall2_holds_preserved, holds_preserved.
Qed.

Section NeuronForward.

Variable math_exp : float -> result float.
Variable set_order : ref -> ref -> bool.

(** [[w * x for w, x in zip(self.weights, inputs)]] *)
Lemma products_spec ws : forall vs inputs h,
  Forall2 (holds h) ws vs ->
  exists ps h',
    comprehension (fun wx : ref * float => __mul__ set_order wx.1 (PyNum wx.2))
      (zip ws inputs) h = Ok (ps, h') /\
    preserves h h' /\
    Forall2 (holds h') ps (zip_with (fun w x => (w * x)%float) vs inputs).
Proof.
  induction ws as [|w ws IH]; intros vs inputs h Hws.
  - apply Forall2_nil_inv_l in Hws as ->.
    exists [], h. split_and!; [done|apply preserves_refl|constructor].
  - apply Forall2_cons_inv_l in Hws as (v & vs' & Hw & Hws & ->).
    destruct inputs as [|x inputs].
    { exists [], h. split_and!; [done|apply preserves_refl|constructor]. }
    destruct (mul_num_spec set_order h w x v Hw) as (p & h1 & Hrun & Hpre1 & Hp).
    destruct (IH vs' inputs h1) as (ps & h' & Hrest & Hpre & Hps).
    { by apply (Forall2_holds_preserved h). }
    exists (p :: ps), h'. split_and!.
    + simpl. rewrite (bind_run _ _ _ _ _ Hrun). by rewrite (bind_run _ _ _ _ _ Hrest).
    + by apply (preserves_trans _ h1).
    + constructor; [by apply (holds_preserved h1)|done].
Qed.

(** The loop of [sum] once the accumulator is a node. *)
Lemma py_sum_spec ps : forall vs a va h,
  holds h a va -> Forall2 (holds h) ps vs ->
  exists out h',
    py_sum set_order (PyTensor a) (PyTensor <$> ps) h = Ok (PyTensor out, h') /\
    preserves h h' /\
    holds h' out (foldl (fun acc q => (acc + q)%float) va vs).
Proof.
  induction ps as [|p ps IH]; intros vs a va h Ha Hps.
  - apply Forall2_nil_inv_l in Hps as ->.
    exists a, h. split_and!; [done|apply preserves_refl|done].
  - apply Forall2_cons_inv_l in Hps as (v & vs' & Hp & Hps & ->).
    destruct (add_tensor_spec set_order h a p va v Ha Hp)
      as (acc & h1 & Hrun & Hpre1 & Hacc).
    destruct (IH vs' acc (va + v)%float h1 Hacc) as (out & h' & Hrest & Hpre & Hout).
    { by apply (Forall2_holds_preserved h). }
    exists out, h'. split_and!; [|by apply (preserves_trans _ h1)|done].
    simpl. by rewrite (bind_run _ _ _ _ _ (fmap_run _ PyTensor _ _ _ Hrun)).
Qed.

(** [sum(products) + self.bias] *)
Lemma pre_activation_spec ps vs h bias b :
  Forall2 (holds h) ps vs -> holds h bias b ->
  exists out h',
    (total ← builtin_sum set_order (PyTensor <$> ps);
     py_add set_order total (PyTensor bias)) h = Ok (PyTensor out, h') /\
    preserves h h' /\
    holds h' out
      match vs with
      | [] => (b + 0)%float
      | v :: vs' => (foldl (fun acc q => (acc + q)%float) (v + 0)%float vs' + b)%float
      end.
Proof.
  intros Hps Hb. destruct Hps as [|p v ps vs Hp Hps].
  - destruct (add_num_spec set_order h bias 0%float b Hb) as (out & h' & Hrun & Hpre & Hout).
    exists out, h'. split_and!; [|done|done].
    unfold builtin_sum. simpl. unfold mbind at 1, M_bind, mret, M_ret. simpl.
    unfold __radd__. by rewrite (fmap_run _ PyTensor _ _ _ Hrun).
  - destruct (add_num_spec set_order h p 0%float v Hp) as (acc & h1 & Hrun & Hpre1 & Hacc).
    destruct (py_sum_spec ps vs acc (v + 0)%float h1 Hacc)
      as (total & h2 & Hsum & Hpre2 & Htotal).
    { by apply (Forall2_holds_preserved h). }
    destruct (add_tensor_spec set_order h2 total bias _ b Htotal)
      as (out & h' & Hadd & Hpre & Hout).
    { apply (holds_preserved h); [|done]. by apply (preserves_trans _ h1). }
    exists out, h'. split_and!; [| |done].
    + assert (builtin_sum set_order (PyTensor <$> p :: ps) h = Ok (PyTensor total, h2)) as Hs.
      { unfold builtin_sum. simpl. unfold __radd__.
        by rewrite (bind_run _ _ _ _ _ (fmap_run _ PyTensor _ _ _ Hrun)). }
      rewrite (bind_run _ _ _ _ _ Hs). simpl.
      by rewrite (fmap_run _ PyTensor _ _ _ Hadd).
    + eauto using preserves_trans.
Qed.

(** [Neuron.__call__] returns a node holding [neuron_value], or raises
    what [math.exp] raises. *)
Lemma Neuron_call_spec h n ws b inputs :
  neuron_in h n ws b ->
  match neuron_value math_exp ws b inputs with
  | Ok v => exists out h',
      Neuron_call math_exp set_order n inputs h = Ok (out, h') /\
      preserves h h' /\ holds h' out v
  | Raise e => Neuron_call math_exp set_order n inputs h = Raise e
  end.
Proof.
  intros [Hws Hb].
  destruct (products_spec (weights n) ws inputs h Hws) as (ps & h1 & Hprod & Hpre1 & Hps).
  destruct (pre_activation_spec ps _ h1 (bias n) b Hps) as (s & h2 & Hsum & Hpre2 & Hs).
  { by apply (holds_preserved h). }
  assert (Neuron_call math_exp set_order n inputs h = tanh math_exp s h2) as Hcall.
  { unfold Neuron_call. rewrite (bind_run _ _ _ _ _ Hprod).
    apply bind_Ok in Hsum as Hsplit. destruct Hsplit as (total & h15 & Htot & Hadd).
    rewrite (bind_run _ _ _ _ _ Htot). by rewrite (bind_run _ _ _ _ _ Hadd). }
  rewrite Hcall. unfold neuron_value.
  pose proof (tanh_spec math_exp h2 s _ Hs) as Htanh.
  destruct (zip_with _ ws inputs) as [|v vs];
    destruct (tanh_value math_exp _) as [t|e]; try done;
    destruct Htanh as (out & h' & Hrun & Hpre & Hout);
    exists out, h'; split_and!; eauto using preserves_trans.
Qed.

End NeuronForward.

(** ** Layers and the multi-layer perceptron *)

Lemma layer_in_preserved h h' l params :
  preserves h h' -> layer_in h l params -> layer_in h' l params.
Proof.
  intros Hpre Hl. eapply Forall2_impl; [exact Hl|].
  intros n p. by apply neuron_in_preserved.
Qed.

Section LayerForward.

Variable math_exp : float -> result float.
Variable set_order : ref -> ref -> bool.

(** [[n(inputs) for n in self.neurons]] *)
Lemma neurons_spec inputs ns : forall params h,
  Forall2 (fun n p => neuron_in h n p.1 p.2) ns params ->
  match layer_values math_exp params inputs with
  | Ok vs => exists outs h',
      comprehension (fun n => Neuron_call math_exp set_order n inputs) ns h
        = Ok (outs, h') /\
      preserves h h' /\ Forall2 (holds h') outs vs
  | Raise e =>
      comprehension (fun n => Neuron_call math_exp set_order n inputs) ns h
        = Raise e
  end.
Proof.
  induction ns as [|n ns IH]; intros params h Hns.
  - apply Forall2_nil_inv_l in Hns as ->. simpl.
    exists [], h. split_and!; [done|apply preserves_refl|constructor].
  - apply Forall2_cons_inv_l in Hns as (p & rest & Hn & Hns & ->). simpl.
    pose proof (Neuron_call_spec math_exp set_order h n p.1 p.2 inputs Hn) as Hcall.
    destruct (neuron_value math_exp p.1 p.2 inputs) as [v|e]; simpl.
    2: { by rewrite (bind_raise _ _ _ _ Hcall). }
    destruct Hcall as (out & h1 & Hrun & Hpre1 & Hout).
    rewrite (bind_run _ _ _ _ _ Hrun).
    specialize (IH rest h1). destruct (layer_values math_exp rest inputs) as [vs|e]; simpl.
    + destruct IH as (outs & h' & Hrest & Hpre & Houts).
      { eapply Forall2_impl; [exact Hns|]. intros m q. by apply neuron_in_preserved. }
      exists (out :: outs), h'. split_and!.
      * by rewrite (bind_run _ _ _ _ _ Hrest).
      * by apply (preserves_trans _ h1).
      * constructor; [by apply (holds_preserved h1)|done].
    + rewrite bind_raise with (e := e); [done|]. apply IH.
      eapply Forall2_impl; [exact Hns|]. intros m q. by apply neuron_in_preserved.
Qed.

(** [Layer.__call__] returns nodes holding [layer_values], raises
    [IndexError] when the layer has no neuron, or raises what [math.exp]
    raises. *)
Lemma Layer_call_spec h l params inputs :
  layer_in h l params ->
  match layer_values math_exp params inputs with
  | Ok [] => Layer_call math_exp set_order l inputs h = Raise IndexError
  | Ok vs => exists out h',
      Layer_call math_exp set_order l inputs h = Ok (out, h') /\
      preserves h h' /\ out_holds h' out vs
  | Raise e => Layer_call math_exp set_order l inputs h = Raise e
  end.
Proof.
  intros Hl. pose proof (neurons_spec inputs (neurons l) params h Hl) as Hns.
  unfold Layer_call.
  destruct (layer_values math_exp params inputs) as [vs|e].
  2: { by rewrite (bind_raise _ _ _ _ Hns). }
  destruct Hns as (outs & h' & Hrun & Hpre & Houts).
  rewrite (bind_run _ _ _ _ _ Hrun).
  destruct Houts as [|o v outs vs Ho Houts]; [done|].
  destruct Houts as [|o' v' outs vs Ho' Houts].
  - exists (Output o), h'. split_and!; [done|done|]. by exists v.
  - exists (Outputs (o :: o' :: outs)), h'. split_and!; [|done|].
    + rewrite decide_True; [done|simpl; lia].
    + split; [simpl; lia|]. by repeat constructor.
Qed.

End LayerForward.

Lemma comprehension_preserves {A B} (f : A -> M B) xs : forall h ys h',
  (forall x h a h', f x h = Ok (a, h') -> preserves h h') ->
  comprehension f xs h = Ok (ys, h') -> preserves h h'.
Proof.
  induction xs as [|x xs IH]; intros h ys h' Hf Hrun; simpl in Hrun.
  - injection Hrun as <- <-. apply preserves_refl.
  - apply bind_Ok in Hrun as (y & h1 & Hx & Hrun).
    apply bind_Ok in Hrun as (ys' & h2 & Hxs & Hret).
    injection Hret as <- <-.
    eauto using preserves_trans.
Qed.

Section CallsPreserve.

Variable math_exp : float -> result float.
Variable set_order : ref -> ref -> bool.

Local Abbreviation perform_preserves :=
  (perform_preserves math_exp (fun _ _ => Raise OverflowError) set_order).

Lemma py_add_preserves lhs rhs h out h' :
  py_add set_order lhs rhs h = Ok (out, h') -> preserves h h'.
Proof.
  intros Hrun. destruct lhs as [x|l|], rhs as [y|r|]; simpl in Hrun;
    try done;
    try (apply fmap_Ok in Hrun as (a & Hrun & _);
         by apply (perform_preserves (Add _) _ _ _ _ Hrun)).
  injection Hrun as <- <-. apply preserves_refl.
Qed.

Lemma py_sum_preserves items : forall acc h out h',
  py_sum set_order acc items h = Ok (out, h') -> preserves h h'.
Proof.
  induction items as [|item items IH]; intros acc h out h' Hrun; simpl in Hrun.
  - injection Hrun as <- <-. apply preserves_refl.
  - apply bind_Ok in Hrun as (acc' & h1 & Hadd & Hrun).
    eauto using preserves_trans, py_add_preserves.
Qed.

Lemma Neuron_call_preserves n inputs h out h' :
  Neuron_call math_exp set_order n inputs h = Ok (out, h') -> preserves h h'.
Proof.
  unfold Neuron_call. intros Hrun.
  apply bind_Ok in Hrun as (ps & h1 & Hprod & Hrun).
  apply bind_Ok in Hrun as (total & h2 & Hsum & Hrun).
  apply bind_Ok in Hrun as (s & h3 & Hadd & Hrun).
  apply comprehension_preserves in Hprod.
  2: { intros wx k a k' Hmul. by apply (perform_preserves (Mul _) _ _ _ _ Hmul). }
  apply py_sum_preserves in Hsum. apply py_add_preserves in Hadd.
  destruct s as [|s|]; [done| |done].
  apply (perform_preserves Tanh) in Hrun.
  eauto using preserves_trans.
Qed.

Lemma Layer_call_preserves l inputs h out h' :
  Layer_call math_exp set_order l inputs h = Ok (out, h') -> preserves h h'.
Proof.
  unfold Layer_call. intros Hrun.
  apply bind_Ok in Hrun as (outs & h1 & Hns & Hrun).
  apply comprehension_preserves in Hns; [|by eauto using Neuron_call_preserves].
  destruct (decide (1 < List.length outs)).
  - by injection Hrun as _ <-.
  - destruct outs; [done|]. by injection Hrun as _ <-.
Qed.

Lemma MLP_loop_preserves ls inputs : forall out h out' h',
  MLP_loop math_exp set_order ls inputs out h = Ok (out', h') -> preserves h h'.
Proof.
  induction ls as [|l ls IH]; intros out h out' h' Hrun; simpl in Hrun.
  - injection Hrun as _ <-. apply preserves_refl.
  - apply bind_Ok in Hrun as (o & h1 & Hl & Hrun).
    eauto using preserves_trans, Layer_call_preserves.
Qed.

(** The loop over the layers keeps only what the last layer returned. *)
Lemma MLP_loop_last front last inputs : forall out h,
  MLP_loop math_exp set_order (front ++ [last]) inputs out h =
  (_ ← MLP_loop math_exp set_order front inputs out;
   o ← Layer_call math_exp set_order last inputs;
   mret (Some o)) h.
Proof.
  induction front as [|l front IH]; intros out h; simpl.
  - reflexivity.
  - destruct (Layer_call math_exp set_order l inputs h) as [[o h1]|e] eqn:Hl.
    + rewrite (bind_run _ _ _ _ _ Hl), IH.
      unfold mbind, M_bind. by rewrite Hl.
    + rewrite (bind_raise _ _ _ _ Hl).
      unfold mbind, M_bind. by rewrite Hl.
Qed.

End CallsPreserve.

(** C10. [MLP.__call__] applies every layer to the original inputs and
    returns what the last layer returned: with at least two layers, a call
    that returns has run the earlier layers on [inputs] (their outputs are
    dropped), its result is the result of the last layer called on [inputs],
    and the forward values in it are the ones the last layer alone gives on
    [inputs] in the heap the call started from. *)
Theorem mlp_call_is_last_layer_on_inputs math_exp set_order
    front last params inputs h out h' :
  front <> [] ->
  layer_in h last params ->
  MLP_call math_exp set_order (mkMLP (front ++ [last])) inputs h = Ok (out, h') ->
  exists h0,
    (exists dropped, MLP_loop math_exp set_order front inputs None h = Ok (dropped, h0)) /\
    Layer_call math_exp set_order last inputs h0 = Ok (out, h') /\
    exists out0 h0' vs,
      Layer_call math_exp set_order last inputs h = Ok (out0, h0') /\
      layer_values math_exp params inputs = Ok vs /\
      out_holds h0' out0 vs /\ out_holds h' out vs.
Proof.
  intros _ Hlast Hcall. unfold MLP_call in Hcall. simpl in Hcall.
  apply bind_Ok in Hcall as (o & h1 & Hloop & Hret).
  rewrite MLP_loop_last in Hloop.
  apply bind_Ok in Hloop as (dropped & h0 & Hfront & Hloop).
  apply bind_Ok in Hloop as (out1 & h2 & Hl & Hsome).
  injection Hsome as <- <-. injection Hret as <- <-.
  exists h0. split; [by exists dropped|]. split; [done|].
  pose proof (MLP_loop_preserves _ _ _ _ _ _ _ _ Hfront) as Hpre.
  pose proof (Layer_call_spec math_exp set_order h0 last params inputs
                (layer_in_preserved _ _ _ _ Hpre Hlast)) as Hspec0.
  pose proof (Layer_call_spec math_exp set_order h last params inputs Hlast) as Hspec.
  destruct (layer_values math_exp params inputs) as [[|v vs]|e]; [congruence| |congruence].
  destruct Hspec0 as (out0' & h0'' & Hrun0 & _ & Hout0).
  destruct Hspec as (out0 & h0' & Hrun & _ & Hout).
  rewrite Hl in Hrun0. injection Hrun0 as <- <-.
  by exists out0, h0', (v :: vs).
Qed.

Lemma mlp_call_is_last_layer_on_inputs_witness :
  let math_exp := fun x : float => Ok (1 + x)%float in
  let order := fun _ _ : ref => true in
  let h := [mkTensor 0.5 [] 0 noop; mkTensor 0 [] 0 noop;
            mkTensor 0.25 [] 0 noop; mkTensor 0 [] 0 noop] in
  let first := mkLayer [mkNeuron [0] 1] in
  let last := mkLayer [mkNeuron [2] 3] in
  exists out h',
    MLP_call math_exp order (mkMLP ([first] ++ [last])) [1%float] h = Ok (out, h') /\
    exists h0,
      (exists dropped, MLP_loop math_exp order [first] [1%float] None h = Ok (dropped, h0)) /\
      Layer_call math_exp order last [1%float] h0 = Ok (out, h') /\
      exists out0 h0' vs,
        Layer_call math_exp order last [1%float] h = Ok (out0, h0') /\
        layer_values math_exp [([0.25%float], 0%float)] [1%float] = Ok vs /\
        out_holds h0' out0 vs /\ out_holds h' out vs.
Proof.
  intros math_exp order h first last.
  destruct (MLP_call math_exp order (mkMLP ([first] ++ [last])) [1%float] h)
    as [[out h']|e] eqn:Hcall; [|vm_compute in Hcall; discriminate Hcall].
  exists out, h'. split; [reflexivity|].
  apply (mlp_call_is_last_layer_on_inputs math_exp order [first] last
           [([0.25%float], 0%float)] [1%float] h out h'); [done| |exact Hcall].
  repeat constructor.
Defined.

(** * Further properties *)

(** ** Forward values of the operations *)

Section ForwardValues.

Variable math_exp : float -> result float.
Variable float_pow : float -> float -> result float.
Variable set_order : ref -> ref -> bool.

Lemma mul_tensor_spec h a b va vb :
  holds h a va -> holds h b vb ->
  exists out h',
    __mul__ set_order a (PyTensor b) h = Ok (out, h') /\
    preserves h h' /\ holds h' out (va * vb).
Proof.
  intros Ha Hb. apply holds_lookup in Ha as (ta & Ha & <-).
  apply holds_lookup in Hb as (tb & Hb & <-).
  eexists _, _. split; [by apply mul_tensor_eq|].
  split; [by apply preserves_installed|by apply holds_installed].
Qed.

Lemma pow_spec h a power va :
  holds h a va ->
  match float_pow va power with
  | Ok v => exists out h',
      __pow__ float_pow a power h = Ok (out, h') /\
      preserves h h' /\ holds h' out v
  | Raise e => __pow__ float_pow a power h = Raise e
  end.
Proof.
  intros Ha. apply holds_lookup in Ha as (ta & Ha & <-).
  destruct (float_pow (value ta) power) as [v|e] eqn:Hv.
  - eexists _, _. split; [exact (pow_eq float_pow h a power ta v Ha Hv)|].
    split; [by apply preserves_installed|by apply holds_installed].
  - unfold __pow__. munfold. by rewrite Ha, Hv.
Qed.

Lemma exp_spec h a va :
  holds h a va ->
  match math_exp va with
  | Ok v => exists out h',
      exp math_exp a h = Ok (out, h') /\ preserves h h' /\ holds h' out v
  | Raise e => exp math_exp a h = Raise e
  end.
Proof.
  intros Ha. apply holds_lookup in Ha as (ta & Ha & <-).
  destruct (math_exp (value ta)) as [v|e] eqn:Hv.
  - eexists _, _. split; [exact (exp_eq math_exp h a ta v Ha Hv)|].
    split; [by apply preserves_installed|by apply holds_installed].
  - unfold exp. munfold. by rewrite Ha, Hv.
Qed.

Lemma sub_spec h a operand va x :
  holds h a va -> operand_value h operand x ->
  exists out h',
    __sub__ set_order a operand h = Ok (out, h') /\
    preserves h h' /\
    holds h' out
      match operand with
      | PyNum _ => (va + - x)%float
      | _ => (va + x * -1)%float
      end.
Proof.
  intros Ha Hx. unfold __sub__. destruct operand as [y|b|]; simpl in Hx; [| |done].
  - subst y. apply (add_num_spec set_order h a (- x)%float va Ha).
  - destruct (mul_num_spec set_order h b (-1)%float x Hx)
      as (nb & h1 & Hneg & Hpre1 & Hnb).
    destruct (add_tensor_spec set_order h1 a nb va _ (holds_preserved _ _ _ _ Hpre1 Ha) Hnb)
      as (out & h' & Hadd & Hpre & Hout).
    exists out, h'. split_and!; [|by apply (preserves_trans _ h1)|done].
    assert (py_neg set_order (PyTensor b) h = Ok (PyTensor nb, h1)) as Hpy.
    { simpl. unfold __neg__, __rmul__. by apply fmap_run. }
    by rewrite (bind_run _ _ _ _ _ Hpy).
Qed.

Lemma truediv_spec h a operand va x :
  holds h a va -> operand_value h operand x ->
  match float_pow x (-1) with
  | Ok inverse => exists out h',
      __truediv__ float_pow set_order a operand h = Ok (out, h') /\
      preserves h h' /\ holds h' out (va * inverse)
  | Raise e => __truediv__ float_pow set_order a operand h = Raise e
  end.
Proof.
  intros Ha Hx. unfold __truediv__.
  destruct operand as [y|b|]; simpl in Hx; [| |done].
  - subst y. destruct (float_pow x (-1)) as [inverse|e] eqn:Hinv.
    + assert (py_inverse float_pow (PyNum x) h = Ok (PyNum inverse, h)) as Hpy.
      { simpl. apply fmap_run. unfold lift. by rewrite Hinv. }
      rewrite (bind_run _ _ _ _ _ Hpy).
      apply (mul_num_spec set_order h a inverse va Ha).
    + apply bind_raise. simpl. unfold fmap, M_fmap, lift. by rewrite Hinv.
  - pose proof (pow_spec h b (-1)%float x Hx) as Hpow.
    destruct (float_pow x (-1)) as [inverse|e].
    + destruct Hpow as (nb & h1 & Hrun & Hpre1 & Hnb).
      destruct (mul_tensor_spec h1 a nb va _ (holds_preserved _ _ _ _ Hpre1 Ha) Hnb)
        as (out & h' & Hmul & Hpre & Hout).
      exists out, h'. split_and!; [|by apply (preserves_trans _ h1)|done].
      assert (py_inverse float_pow (PyTensor b) h = Ok (PyTensor nb, h1)) as Hpy.
      { simpl. by apply fmap_run. }
      by rewrite (bind_run _ _ _ _ _ Hpy).
    + apply bind_raise. simpl. unfold fmap, M_fmap. by rewrite Hpow.
Qed.

End ForwardValues.

(** X1. Forward values. When [self] is a node and the operand a number or a
    node, each of the eight operations returns a new node holding the value
    the operands determine, leaving the value, operands and gradient of
    every existing node as they were; [pow], [div], [exp] and [tanh] raise
    what the host's [**] or [math.exp] raises (and [tanh] the division by
    zero), and the others never fail. *)
Theorem operation_forward_value math_exp float_pow set_order op self h a x :
  holds h self a ->
  operand_ok h op x ->
  match forward_value math_exp float_pow op a x with
  | Ok v => exists out h',
      perform math_exp float_pow set_order op self h = Ok (out, h') /\
      preserves h h' /\ holds h' out v
  | Raise e => perform math_exp float_pow set_order op self h = Raise e
  end.
Proof.
  intros Ha Hx. destruct op as [operand| |operand|operand|power|operand| |]; simpl.
  - destruct operand as [y|b|]; simpl in Hx; [subst y| |done].
    + by apply add_num_spec.
    + by apply add_tensor_spec.
  - by apply mul_num_spec.
  - pose proof (sub_spec set_order h self operand a x Ha Hx) as Hsub.
    by destruct operand.
  - destruct operand as [y|b|]; simpl in Hx; [subst y| |done].
    + by apply mul_num_spec.
    + by apply mul_tensor_spec.
  - by apply pow_spec.
  - pose proof (truediv_spec float_pow set_order h self operand a x Ha Hx) as Hdiv.
    unfold mbind, result_mbind, result_bind.
    by destruct (float_pow x (-1)%float).
  - by apply exp_spec.
  - by apply tanh_spec.
Qed.

Lemma operation_forward_value_witness :
  let h := [mkTensor 6 [] 0 noop; mkTensor 3 [] 0 noop] in
  let pow := fun x _ : float => Ok (1 / x)%float in
  holds h 0 6 /\ operand_ok h (Div (PyTensor 1)) 3 /\
  exists out h',
    perform (fun x => Ok x) pow (fun _ _ => true) (Div (PyTensor 1)) 0 h
      = Ok (out, h') /\
    preserves h h' /\ holds h' out (6 * (1 / 3)).
Proof.
  split; [reflexivity|]. split; [reflexivity|].
  apply (operation_forward_value (fun x => Ok x)
           (fun x _ : float => Ok (1 / x)%float) (fun _ _ => true)
           (Div (PyTensor 1)) 0
           [mkTensor 6 [] 0 noop; mkTensor 3 [] 0 noop] 6 3); reflexivity.
Defined.

(** X2. Reflected operations. With a plain number [c] on the left of a node
    holding [a], [c + a] holds [a + c], [c * a] holds [a * c] and [c - a]
    holds [a * -1 + c]: each is computed from the node's side. *)
Theorem reflected_forward_value set_order self h a c :
  holds h self a ->
  (exists out h',
     __radd__ set_order self (PyNum c) h = Ok (out, h') /\
     preserves h h' /\ holds h' out (a + c)) /\
  (exists out h',
     __rmul__ set_order self (PyNum c) h = Ok (out, h') /\
     preserves h h' /\ holds h' out (a * c)) /\
  (exists out h',
     __rsub__ set_order self (PyNum c) h = Ok (out, h') /\
     preserves h h' /\ holds h' out (a * -1 + c)).
Proof.
  intros Ha. split_and!.
  - by apply add_num_spec.
  - by apply mul_num_spec.
  - destruct (mul_num_spec set_order h self (-1)%float a Ha)
      as (negated & h1 & Hneg & Hpre1 & Hn).
    destruct (add_num_spec set_order h1 negated c _ Hn)
      as (out & h' & Hadd & Hpre & Hout).
    exists out, h'. split_and!; [|by apply (preserves_trans _ h1)|done].
    unfold __rsub__, __neg__, __rmul__, __radd__.
    by rewrite (bind_run _ _ _ _ _ Hneg).
Qed.

Lemma reflected_forward_value_witness :
  let h := [mkTensor 2 [] 0 noop] in
  holds h 0 2 /\
  (exists out h',
     __radd__ (fun _ _ => true) 0 (PyNum 5) h = Ok (out, h') /\
     preserves h h' /\ holds h' out (2 + 5)) /\
  (exists out h',
     __rmul__ (fun _ _ => true) 0 (PyNum 5) h = Ok (out, h') /\
     preserves h h' /\ holds h' out (2 * 5)) /\
  (exists out h',
     __rsub__ (fun _ _ => true) 0 (PyNum 5) h = Ok (out, h') /\
     preserves h h' /\ holds h' out (2 * -1 + 5)).
Proof.
  split; [reflexivity|].
  apply (reflected_forward_value (fun _ _ => true) 0 [mkTensor 2 [] 0 noop] 2 5).
  reflexivity.
Defined.

(** ** Graphs as the operations build them *)

Lemma sort_last depth h T st :
  _sort depth h T (∅, []) = Ok st -> last st.2 = Some T.
Proof.
  destruct depth as [|depth]; [done|]. simpl.
  destruct (decide (T ∈ (∅ : gset ref))) as [Hin|_]; [set_solver|].
  destruct (h !! T) as [t|]; [|done].
  destruct (for_children _ _ _) as [st'|]; [|done]. simpl.
  intros [= <-]. simpl. apply last_snoc.
Qed.

(** X3. Construction invariants. In every graph built by the operations
    from nothing, every gradient is still [0.0], every operand of a node is
    a node of the graph, and every operand was allocated before the node
    that uses it, so the graph is acyclic. *)
Theorem constructed_graph_invariants math_exp float_pow set_order h :
  constructed math_exp float_pow set_order h ->
  (forall r t, h !! r = Some t -> grad t = 0%float) /\
  (forall n o, operand_of h n o -> o < n /\ is_Some (h !! o)).
Proof.
  intros Hbuilt. split.
  - intros r t Hr.
    apply (Forall_lookup_1 _ _ _ _ (constructed_zero_grad _ _ _ _ Hbuilt) Hr).
  - intros n o Hop. apply constructed_allocation_ordered in Hbuilt.
    split; [by apply Hbuilt|by apply (allocation_ordered_closed h n)].
Qed.

Lemma constructed_graph_invariants_witness :
  let so := fun _ _ : ref => true in
  let h := [mkTensor 2 [] 0 (mul_backward 0 1 2); mkTensor 3 [] 0 noop;
            mkTensor 6 [0; 1] 0 noop] in
  constructed (fun x => Ok x) (fun x _ => Ok x) so h /\
  (forall r t, h !! r = Some t -> grad t = 0%float) /\
  (forall n o, operand_of h n o -> o < n /\ is_Some (h !! o)).
Proof.
  assert (constructed (fun x => Ok x) (fun x _ => Ok x) (fun _ _ => true)
            [mkTensor 2 [] 0 (mul_backward 0 1 2); mkTensor 3 [] 0 noop;
             mkTensor 6 [0; 1] 0 noop]) as Hbuilt.
  { apply (constructed_op _ _ _
             [mkTensor 2 [] 0 noop; mkTensor 3 [] 0 noop]
             (Mul (PyTensor 1)) 0 2); [|by eexists|reflexivity].
    apply (constructed_leaf _ _ _ [mkTensor 2 [] 0 noop] 3 1); [|reflexivity].
    apply (constructed_leaf _ _ _ [] 2 0); [|reflexivity].
    apply constructed_empty. }
  split; [exact Hbuilt|].
  exact (constructed_graph_invariants _ _ _ _ Hbuilt).
Defined.

(** X4. On every graph built by the operations, [_topological_sort] from a
    node whose allocation index is below the recursion limit returns a valid
    order: operands before their users, exactly the nodes reachable from
    [T], each once, and [T] itself last, so that [backward] starts from
    [T]. *)
Theorem constructed_graph_order math_exp float_pow set_order h
    recursion_limit T :
  constructed math_exp float_pow set_order h ->
  is_Some (h !! T) ->
  T < recursion_limit ->
  exists order,
    _topological_sort recursion_limit T h = Ok (order, h) /\
    valid_order h T order /\
    last order = Some T.
Proof.
  intros Hbuilt HT Hlimit.
  destruct (constructed_topological_order _ _ _ _ _ _ Hbuilt HT Hlimit)
    as (order & Hrun & Hvalid).
  exists order. split_and!; [done|done|].
  unfold _topological_sort in Hrun.
  destruct (_sort recursion_limit h T (∅, [])) as [st|] eqn:Hsort; [|done].
  injection Hrun as <-. by apply (sort_last _ _ _ _ Hsort).
Qed.

Lemma constructed_graph_order_witness :
  let so := fun _ _ : ref => true in
  let h := [mkTensor 2 [] 0 (mul_backward 0 1 2); mkTensor 3 [] 0 noop;
            mkTensor 6 [0; 1] 0 noop] in
  _topological_sort 1000 2 h = Ok ([0; 1; 2], h) /\
  exists order,
    _topological_sort 1000 2 h = Ok (order, h) /\
    valid_order h 2 order /\
    last order = Some 2.
Proof.
  split; [reflexivity|].
  apply (constructed_graph_order (fun x => Ok x) (fun x _ => Ok x)
           (fun _ _ => true)); [|by eexists|lia].
  apply (constructed_op _ _ _
           [mkTensor 2 [] 0 noop; mkTensor 3 [] 0 noop]
           (Mul (PyTensor 1)) 0 2); [|by eexists|reflexivity].
  apply (constructed_leaf _ _ _ [mkTensor 2 [] 0 noop] 3 1); [|reflexivity].
  apply (constructed_leaf _ _ _ [] 2 0); [|reflexivity].
  apply constructed_empty.
Defined.

(** ** What [backward] writes *)

(** X5. [backward] writes gradients only: when it returns, the heap has the
    same nodes, each with the value, operands and closure it had. *)
Theorem backward_writes_gradients_only float_pow recursion_limit T h h' :
  backward float_pow recursion_limit T h = Ok (tt, h') ->
  List.length h' = List.length h /\
  forall r t, h !! r = Some t ->
    exists t', h' !! r = Some t' /\
      value t' = value t /\ _children t' = _children t /\
      _backward t' = _backward t.
Proof.
  intros Hrun. apply backward_reset in Hrun. unfold reset_all in Hrun.
  split.
  - apply (f_equal List.length) in Hrun. by rewrite !length_fmap in Hrun.
  - intros r t Hr.
    apply (f_equal (fun k : heap => k !! r)) in Hrun.
    rewrite !list_lookup_fmap, Hr in Hrun.
    destruct (h' !! r) as [t'|]; [|done].
    injection Hrun as Hv Hc Hb. by exists t'.
Qed.

Lemma backward_writes_gradients_only_witness :
  let h := [mkTensor 2 [] 0 (mul_backward 0 1 2); mkTensor 3 [] 0 noop;
            mkTensor 6 [0; 1] 0 noop] in
  let h' := [mkTensor 2 [] 3 (mul_backward 0 1 2); mkTensor 3 [] 2 noop;
             mkTensor 6 [0; 1] 1 noop] in
  backward (fun x _ => Ok x) 1000 2 h = Ok (tt, h') /\
  List.length h' = List.length h /\
  forall r t, h !! r = Some t ->
    exists t', h' !! r = Some t' /\
      value t' = value t /\ _children t' = _children t /\
      _backward t' = _backward t.
Proof.
  split; [reflexivity|].
  apply (backward_writes_gradients_only (fun x _ => Ok x) 1000 2). reflexivity.
Defined.

(** ** Deep graphs *)

Lemma sort_first_chain h depth : forall n V L,
  allocation_ordered h ->
  first_chain h n depth ->
  (forall v, v ∈ V -> n < v) ->
  _sort depth h n (V, L) = Raise RecursionError.
Proof.
  induction depth as [|depth IH]; intros n V L Hall Hchain Hvis; [done|].
  destruct Hchain as (t & c & rest & Ht & Hcs & Hchain). simpl.
  destruct (decide (n ∈ V)) as [Hin|_]; [apply Hvis in Hin; lia|].
  rewrite Ht, Hcs. simpl. rewrite IH; [done|done|done|].
  assert (c < n) as Hlt.
  { apply Hall. exists t. split; [done|]. rewrite Hcs. by left. }
  intros v Hv. apply elem_of_union in Hv as [Hv|Hv].
  - apply elem_of_singleton in Hv as ->. done.
  - apply Hvis in Hv. lia.
Qed.

Lemma seed_lookup_children (h : heap) T t g r :
  h !! T = Some t ->
  _children <$> (<[T := with_grad g t]> h) !! r = _children <$> h !! r.
Proof.
  intros Ht. destruct (decide (r = T)) as [->|Hne].
  - rewrite list_lookup_insert_eq by (by eapply lookup_lt_Some). by rewrite Ht.
  - by rewrite list_lookup_insert_ne.
Qed.

Lemma same_children_operand_of (h h' : heap) n o :
  (forall r, _children <$> h' !! r = _children <$> h !! r) ->
  operand_of h' n o -> operand_of h n o.
Proof.
  intros Hsame (t' & Hn & Ho). specialize (Hsame n). rewrite Hn in Hsame.
  destruct (h !! n) as [t|] eqn:Ht; [|done]. injection Hsame as Hsame.
  exists t. split; [done|]. by rewrite <- Hsame.
Qed.

Lemma same_children_first_chain (h h' : heap) k : forall n,
  (forall r, _children <$> h' !! r = _children <$> h !! r) ->
  first_chain h n k -> first_chain h' n k.
Proof.
  induction k as [|k IH]; intros n Hsame Hchain; [done|].
  destruct Hchain as (t & c & rest & Ht & Hcs & Hchain).
  pose proof (Hsame n) as Hn. rewrite Ht in Hn.
  destruct (h' !! n) as [t'|] eqn:Ht'; [|done]. injection Hn as Hn.
  exists t', c, rest. split_and!; [done|congruence|by apply IH].
Qed.

(** X6. Recursion depth. On a graph built by the operations, when the chain
    of first operands from [T] is at least as long as the recursion limit,
    [_sort] runs out of frames: [_topological_sort] and [backward] raise
    [RecursionError]. *)
Theorem deep_graph_raises_recursion_error math_exp float_pow set_order h
    recursion_limit T :
  constructed math_exp float_pow set_order h ->
  is_Some (h !! T) ->
  first_chain h T recursion_limit ->
  _topological_sort recursion_limit T h = Raise RecursionError /\
  backward float_pow recursion_limit T h = Raise RecursionError.
Proof.
  intros Hbuilt [t Ht] Hchain.
  apply constructed_allocation_ordered in Hbuilt.
  split.
  - unfold _topological_sort.
    rewrite sort_first_chain; [done|done|done|set_solver].
  - unfold backward. munfold. rewrite Ht. unfold _topological_sort.
    pose proof (fun r => seed_lookup_children h T t 1%float r Ht) as Hsame.
    rewrite sort_first_chain; [done| | |set_solver].
    + intros n o Hop. by apply Hbuilt, (same_children_operand_of _ _ _ _ Hsame).
    + by apply (same_children_first_chain h).
Qed.

Lemma deep_graph_raises_recursion_error_witness :
  let h := [mkTensor 1 [] 0 (add_backward 0 1 2); mkTensor 1 [] 0 noop;
            mkTensor 2 [0; 1] 0 (add_backward 2 3 4); mkTensor 1 [] 0 noop;
            mkTensor 3 [2; 3] 0 noop] in
  constructed (fun x => Ok x) (fun x _ => Ok x) (fun _ _ => true) h /\
  _topological_sort 2 4 h = Raise RecursionError /\
  backward (fun x _ => Ok x) 2 4 h = Raise RecursionError.
Proof.
  assert (constructed (fun x => Ok x) (fun x _ => Ok x) (fun _ _ => true)
            [mkTensor 1 [] 0 (add_backward 0 1 2); mkTensor 1 [] 0 noop;
             mkTensor 2 [0; 1] 0 (add_backward 2 3 4); mkTensor 1 [] 0 noop;
             mkTensor 3 [2; 3] 0 noop]) as Hbuilt.
  { apply (constructed_op _ _ _
             [mkTensor 1 [] 0 (add_backward 0 1 2); mkTensor 1 [] 0 noop;
              mkTensor 2 [0; 1] 0 noop]
             (Add (PyNum 1)) 2 4); [|by eexists|reflexivity].
    apply (constructed_op _ _ _ [mkTensor 1 [] 0 noop] (Add (PyNum 1)) 0 2);
      [|by eexists|reflexivity].
    apply (constructed_leaf _ _ _ [] 1 0); [|reflexivity].
    apply constructed_empty. }
  split; [exact Hbuilt|].
  apply (deep_graph_raises_recursion_error _ _ _ _ 2 4 Hbuilt); [by eexists|].
  simpl. eexists _, _, _. split_and!; [reflexivity|reflexivity|].
  eexists _, _, _. split_and!; [reflexivity|reflexivity|done].
Defined.

(** ** One operation on a fresh leaf *)

(** X7. Local derivatives. For a fresh leaf [a] holding [v] and a single
    operation [t = a <op> c] with a plain-number operand (or none),
    [t.backward()] returns with [t] holding the forward value and [a.grad]
    equal to [0.0] plus the local derivative of the operation times [1.0]:
    [1] for [add] and [sub], [-1] for [neg], [c] for [mul], [c ** -1] for
    [div], [power * v ** (power - 1)] for [pow], [exp(v)] for [exp] and
    [1 - tanh(v) ** 2] for [tanh]. *)
Theorem single_operation_gradient math_exp float_pow set_order
    recursion_limit op v c r g :
  2 <= recursion_limit ->
  number_operand op c ->
  forward_value math_exp float_pow op v c = Ok r ->
  leaf_gradient math_exp float_pow op v c = Ok g ->
  outcome (leaf_scenario math_exp float_pow set_order recursion_limit op v [])
    = Ok (r, g).
Proof.
  intros Hlim Hop Hr Hg.
  destruct recursion_limit as [|[|n]]; [lia|lia|].
  destruct op as [operand| |operand|operand|power|operand| |];
    simpl in Hop; subst; simpl in Hr, Hg.
  - injection Hr as <-. injection Hg as <-.
    vm_compute. by destruct (set_order 0 1).
  - injection Hr as <-. injection Hg as <-.
    vm_compute. by destruct (set_order 0 1).
  - injection Hr as <-. injection Hg as <-.
    vm_compute. by destruct (set_order 0 1).
  - injection Hr as <-. injection Hg as <-.
    vm_compute. by destruct (set_order 0 1).
  - unfold mbind, result_mbind, result_bind in Hg.
    destruct (float_pow v (power - 1)%float) as [p|] eqn:Hp; [|done].
    injection Hg as <-.
    vm_compute. rewrite Hr. vm_compute. by rewrite Hp.
  - unfold mbind, result_mbind, result_bind in Hr, Hg.
    destruct (float_pow c (-1)%float) as [inverse|] eqn:Hinv; [|done].
    injection Hr as <-. injection Hg as <-.
    vm_compute. rewrite Hinv. vm_compute. by destruct (set_order 0 1).
  - unfold mbind, result_mbind, result_bind in Hg.
    rewrite Hr in Hg. injection Hg as <-.
    vm_compute. rewrite Hr. reflexivity.
  - unfold mbind, result_mbind, result_bind in Hg.
    rewrite Hr in Hg.
    destruct (float_pow r 2%float) as [sq|] eqn:Hsq; [|done].
    injection Hg as <-.
    unfold tanh_value, float_div in Hr.
    unfold mbind, result_mbind, result_bind in Hr.
    destruct (math_exp (2 * v)%float) as [e|] eqn:He; [|done].
    destruct (e + 1 =? 0)%float eqn:Hz; [done|]. injection Hr as <-.
    vm_compute. rewrite He. vm_compute. rewrite Hz. vm_compute.
    by rewrite Hsq.
Qed.

Lemma single_operation_gradient_witness :
  let pow := fun x y : float =>
    if (y =? 3)%float then Ok (x * x * x)%float else Ok (x * x)%float in
  2 <= 1000 /\ number_operand (Pow 3) 0 /\
  forward_value (fun x => Ok x) pow (Pow 3) 2 0 = Ok 8%float /\
  leaf_gradient (fun x => Ok x) pow (Pow 3) 2 0 = Ok 12%float /\
  outcome (leaf_scenario (fun x => Ok x) pow (fun _ _ => true) 1000 (Pow 3) 2 [])
    = Ok (8%float, 12%float).
Proof.
  split; [lia|]. split; [done|]. split; [reflexivity|]. split; [reflexivity|].
  apply (single_operation_gradient (fun x => Ok x)
           (fun x y : float =>
              if (y =? 3)%float then Ok (x * x * x)%float else Ok (x * x)%float)
           (fun _ _ => true) 1000 (Pow 3) 2 0 8 12);
    [lia|done|reflexivity|reflexivity].
Defined.

(** ** A neuron and its gradients *)

(** X8. The gradients [backward] leaves on a neuron's weights depend on the
    order in which the operand sets are iterated.  For weights [0.5, -0.5],
    bias [0.0] and inputs [1.0, 1.0] the output is [0.0]; when every set
    yields the right operand first, the three parameters end with gradient
    [1.0]; when every set yields the left operand first, the second weight
    ends with [0.0], because its closure runs before the closure that
    feeds its product. *)
Theorem neuron_gradient_depends_on_set_order math_exp float_pow
    recursion_limit :
  math_exp 0%float = Ok 1%float ->
  float_pow 0%float 2%float = Ok 0%float ->
  7 <= recursion_limit ->
  outcome (neuron_scenario math_exp float_pow (fun _ _ => false) recursion_limit
             [0.5; -0.5]%float 0%float [1; 1]%float [])
    = Ok (0%float, [1; 1; 1]%float) /\
  outcome (neuron_scenario math_exp float_pow (fun _ _ => true) recursion_limit
             [0.5; -0.5]%float 0%float [1; 1]%float [])
    = Ok (0%float, [1; 0; 1]%float).
Proof.
  intros Hexp Hpow Hlim.
  destruct recursion_limit as [|[|[|[|[|[|[|n]]]]]]]; [lia..|].
  split; vm_compute; rewrite Hexp; vm_compute; by rewrite Hpow.
Qed.

Lemma neuron_gradient_depends_on_set_order_witness :
  let math_exp := fun x : float => Ok (1 + x)%float in
  let pow := fun x _ : float => Ok (x * x)%float in
  math_exp 0%float = Ok 1%float /\ pow 0%float 2%float = Ok 0%float /\
  7 <= 1000 /\
  outcome (neuron_scenario math_exp pow (fun _ _ => false) 1000
             [0.5; -0.5]%float 0%float [1; 1]%float [])
    = Ok (0%float, [1; 1; 1]%float) /\
  outcome (neuron_scenario math_exp pow (fun _ _ => true) 1000
             [0.5; -0.5]%float 0%float [1; 1]%float [])
    = Ok (0%float, [1; 0; 1]%float).
Proof.
  split; [reflexivity|]. split; [reflexivity|]. split; [lia|].
  apply (neuron_gradient_depends_on_set_order
           (fun x : float => Ok (1 + x)%float)
           (fun x _ : float => Ok (x * x)%float) 1000);
    [reflexivity|reflexivity|lia].
Defined.

(** ** Constructors *)

Section Constructors.

Variable uniform : nat -> float.

Lemma Neuron_init_weights_eq n : forall k h,
  Neuron_init_weights uniform n k h =
    Ok ((seq (List.length h) n, k + n), h ++ (leaf <$> (uniform <$> seq k n))).
Proof.
  induction n as [|n IH]; intros k h; simpl.
  - unfold mret, M_ret. rewrite Nat.add_0_r. rewrite (app_nil_r h). reflexivity.
  - munfold. rewrite IH. rewrite length_app. simpl.
    rewrite Nat.add_1_r, <- app_assoc. simpl.
    by rewrite Nat.add_succ_r.
Qed.

Lemma Neuron_init_eq n k h :
  Neuron_init uniform n k h =
    Ok ((mkNeuron (seq (List.length h) n) (List.length h + n), k + n),
        h ++ (leaf <$> ((uniform <$> seq k n) ++ [0%float]))).
Proof.
  unfold Neuron_init. munfold. rewrite Neuron_init_weights_eq.
  rewrite length_app, !length_fmap, length_seq.
  by rewrite fmap_app, app_assoc.
Qed.

Lemma Layer_init_neurons_spec a u : forall k h,
  exists ns vs,
    Layer_init_neurons uniform a u k h = Ok ((ns, k + u * a), h ++ (leaf <$> vs)) /\
    (n ← ns; Neuron_parameters n) = seq (List.length h) (List.length vs) /\
    List.length vs = u * (a + 1) /\
    layer_has_shape (mkLayer ns) a u.
Proof.
  induction u as [|u IH]; intros k h.
  - exists [], []. simpl. unfold mret, M_ret.
    rewrite Nat.add_0_r, app_nil_r. split_and!; try done.
  - destruct (IH (k + a) (h ++ (leaf <$> ((uniform <$> seq k a) ++ [0%float]))))
      as (ns & vs & Hrun & Hps & Hlen & Hn & Hw).
    exists (mkNeuron (seq (List.length h) a) (List.length h + a) :: ns),
      (((uniform <$> seq k a) ++ [0%float]) ++ vs).
    split_and!.
    + simpl. rewrite (bind_run _ _ _ _ _ (Neuron_init_eq a k h)). simpl.
      rewrite (bind_run _ _ _ _ _ Hrun). simpl. unfold mret, M_ret.
      f_equal. f_equal; [f_equal; lia|by rewrite !fmap_app, !app_assoc].
    + assert (List.length ((uniform <$> seq k a) ++ [0%float]) = S a) as Hl.
      { rewrite length_app, length_fmap, length_seq. simpl. lia. }
      rewrite bind_cons, Hps. unfold Neuron_parameters. simpl.
      rewrite <- seq_S, (length_app h), length_fmap, (length_app _ vs), Hl.
      by rewrite seq_app.
    + rewrite !length_app, length_fmap, length_seq, Hlen. simpl. lia.
    + simpl in Hn, Hw. split; simpl; [by f_equal|].
      constructor; [simpl; by rewrite length_seq|done].
Qed.

Lemma MLP_init_layers_spec us : forall pre a k h,
  exists ls vs,
    MLP_init_layers uniform (pre ++ a :: us)
      (seq (List.length pre) (List.length us)) k h
      = Ok ((ls, k + weight_count a us), h ++ (leaf <$> vs)) /\
    (l ← ls; Layer_parameters l) = seq (List.length h) (List.length vs) /\
    List.length vs = parameter_count a us /\
    mlp_has_shape ls a us.
Proof.
  induction us as [|u us IH]; intros pre a k h.
  - exists [], []. simpl. unfold mret, M_ret.
    by rewrite Nat.add_0_r, app_nil_r.
  - destruct (Layer_init_neurons_spec a u k h) as (ns & vs1 & Hl & Hps1 & Hlen1 & Hshape).
    destruct (IH (pre ++ [a]) u (k + u * a) (h ++ (leaf <$> vs1)))
      as (ls & vs2 & Hrun & Hps2 & Hlen2 & Hshapes).
    exists (mkLayer ns :: ls), (vs1 ++ vs2). split_and!.
    + simpl. rewrite lookup_app_r by lia. rewrite Nat.sub_diag. simpl.
      rewrite lookup_app_r by lia.
      replace (List.length pre + 1 - List.length pre) with 1 by lia. simpl.
      assert (Layer_init uniform a u k h
                = Ok ((mkLayer ns, k + u * a), h ++ (leaf <$> vs1))) as Hl'.
      { unfold Layer_init. by rewrite (bind_run _ _ _ _ _ Hl). }
      rewrite (bind_run _ _ _ _ _ Hl'). simpl.
      rewrite <- app_assoc in Hrun. simpl in Hrun.
      rewrite length_app in Hrun. simpl in Hrun.
      rewrite Nat.add_1_r in Hrun.
      rewrite (bind_run _ _ _ _ _ Hrun). simpl. unfold mret, M_ret.
      f_equal. f_equal; [f_equal; lia|by rewrite !fmap_app, !app_assoc].
    + rewrite bind_cons, Hps2. unfold Layer_parameters. simpl. rewrite Hps1.
      rewrite !length_app, length_fmap. by rewrite seq_app.
    + rewrite length_app, Hlen1, Hlen2. done.
    + done.
Qed.

End Constructors.

(** X9. Construction of a network. [MLP(n_inputs, n_units)] always returns;
    it only appends fresh leaves to the heap (gradient [0.0], no operand,
    default closure), one per parameter; [parameters()] lists exactly these
    nodes, in allocation order and without repetition; layer [i] has
    [n_units[i]] neurons, each with as many weights as layer [i - 1] has
    units ([n_inputs] for the first); and one value is drawn from the
    generator per weight. *)
Theorem MLP_init_spec uniform n_inputs n_units k h :
  exists mlp vs,
    MLP_init uniform n_inputs n_units k h
      = Ok ((mlp, k + weight_count n_inputs n_units), h ++ (leaf <$> vs)) /\
    MLP_parameters mlp = seq (List.length h) (List.length vs) /\
    NoDup (MLP_parameters mlp) /\
    List.length vs = parameter_count n_inputs n_units /\
    mlp_has_shape (layers mlp) n_inputs n_units.
Proof.
  destruct (MLP_init_layers_spec uniform n_units [] n_inputs k h)
    as (ls & vs & Hrun & Hps & Hlen & Hshape).
  exists (mkMLP ls), vs. split_and!; try done.
  - unfold MLP_init. simpl in Hrun. by rewrite (bind_run _ _ _ _ _ Hrun).
  - unfold MLP_parameters. simpl. rewrite Hps. apply NoDup_seq.
Qed.

(** ** Calling neurons and layers *)

(** X10. Forward value of a neuron. On weights holding [ws] and a bias
    holding [b], [Neuron.__call__] returns a new node holding
    [tanh((...((w1*x1 + 0) + w2*x2) + ...) + b)], summed from the left in
    this order over the pairs [zip] keeps, or [tanh(b + 0)] when there is no
    pair; it leaves the value, operands and gradient of existing nodes as
    they were, and it fails exactly when [math.exp] raises or the
    division in [tanh] is by zero, with that exception. *)
Theorem neuron_forward_value math_exp set_order h n ws b inputs :
  neuron_in h n ws b ->
  match neuron_value math_exp ws b inputs with
  | Ok v => exists out h',
      Neuron_call math_exp set_order n inputs h = Ok (out, h') /\
      preserves h h' /\ holds h' out v
  | Raise e => Neuron_call math_exp set_order n inputs h = Raise e
  end.
Proof. apply Neuron_call_spec. Qed.

Lemma neuron_forward_value_witness :
  let math_exp := fun x : float => Ok (1 + x)%float in
  let h := [mkTensor 0.5 [] 0 noop; mkTensor (-0.5) [] 0 noop;
            mkTensor 0 [] 0 noop] in
  let n := mkNeuron [0; 1] 2 in
  neuron_in h n [0.5; -0.5]%float 0%float /\
  neuron_value math_exp [0.5; -0.5]%float 0%float [1; 1]%float = Ok 0%float /\
  exists out h',
    Neuron_call math_exp (fun _ _ => true) n [1; 1]%float h = Ok (out, h') /\
    preserves h h' /\ holds h' out 0%float.
Proof.
  intros math_exp h n.
  assert (neuron_in h n [0.5; -0.5]%float 0%float) as Hin.
  { split; [by repeat constructor|reflexivity]. }
  split; [exact Hin|]. split; [reflexivity|].
  exact (neuron_forward_value math_exp (fun _ _ => true) h n
           [0.5; -0.5]%float 0%float [1; 1]%float Hin).
Defined.

(** X11. What a layer returns. On neurons whose parameters hold [params],
    [Layer.__call__] calls the neurons in order; it returns the single
    output node when the layer has one neuron and the list of output nodes
    when it has more, each holding its neuron's forward value; it raises
    [IndexError] when the layer has no neuron, and the first exception a
    neuron raises otherwise. *)
Theorem layer_forward_values math_exp set_order h l params inputs :
  layer_in h l params ->
  match layer_values math_exp params inputs with
  | Ok [] => Layer_call math_exp set_order l inputs h = Raise IndexError
  | Ok vs => exists out h',
      Layer_call math_exp set_order l inputs h = Ok (out, h') /\
      preserves h h' /\ out_holds h' out vs
  | Raise e => Layer_call math_exp set_order l inputs h = Raise e
  end.
Proof. apply Layer_call_spec. Qed.

Lemma layer_forward_values_witness :
  let math_exp := fun x : float => Ok (1 + x)%float in
  let h := [mkTensor 0.5 [] 0 noop; mkTensor 0 [] 0 noop;
            mkTensor 0.25 [] 0 noop; mkTensor 0 [] 0 noop] in
  let l := mkLayer [mkNeuron [0] 1; mkNeuron [2] 3] in
  let params := [([0.5%float], 0%float); ([0.25%float], 0%float)] in
  layer_in h l params /\
  exists vs, layer_values math_exp params [1%float] = Ok vs /\
  exists out h',
    Layer_call math_exp (fun _ _ => true) l [1%float] h = Ok (out, h') /\
    preserves h h' /\ out_holds h' out vs.
Proof.
  intros math_exp h l params.
  assert (layer_in h l params) as Hin by (by repeat constructor).
  split; [exact Hin|].
  pose proof (layer_forward_values math_exp (fun _ _ => true) h l params
                [1%float] Hin) as Hspec.
  destruct (layer_values math_exp params [1%float]) as [[|v vs]|e] eqn:Hvs;
    [vm_compute in Hvs; discriminate Hvs| |vm_compute in Hvs; discriminate Hvs].
  exists (v :: vs). split; [reflexivity|]. exact Hspec.
Defined.

Lemma zip_surplus {A B} (xs : list A) (ys extra : list B) :
  List.length xs <= List.length ys -> zip xs (ys ++ extra) = zip xs ys.
Proof.
  revert ys. induction xs as [|x xs IH]; intros [|y ys] Hlen; simpl in *;
    try done; try lia.
  f_equal. apply IH. lia.
Qed.

Lemma zip_surplus_l {A B} (xs extra : list A) (ys : list B) :
  List.length ys <= List.length xs -> zip (xs ++ extra) ys = zip xs ys.
Proof.
  revert ys. induction xs as [|x xs IH]; intros [|y ys] Hlen; simpl in *;
    try done; try lia.
  - by destruct extra.
  - f_equal. apply IH. lia.
Qed.

(** X12. No shape check. A neuron pairs weights and inputs with [zip]:
    inputs beyond the number of weights are ignored, and so are weights
    beyond the number of inputs (they take no part in the result and get no
    gradient from it). *)
Theorem neuron_ignores_surplus math_exp set_order ws extra_ws b inputs
    extra_inputs h :
  List.length ws = List.length inputs ->
  Neuron_call math_exp set_order (mkNeuron ws b) (inputs ++ extra_inputs) h
    = Neuron_call math_exp set_order (mkNeuron ws b) inputs h /\
  Neuron_call math_exp set_order (mkNeuron (ws ++ extra_ws) b) inputs h
    = Neuron_call math_exp set_order (mkNeuron ws b) inputs h.
Proof.
  intros Hlen. unfold Neuron_call. simpl.
  rewrite zip_surplus by lia. by rewrite zip_surplus_l by lia.
Qed.

Lemma neuron_ignores_surplus_witness :
  let math_exp := fun x : float => Ok (1 + x)%float in
  let so := fun _ _ : ref => true in
  let h := [mkTensor 0.5 [] 0 noop; mkTensor 0.25 [] 0 noop;
            mkTensor 0 [] 0 noop] in
  List.length [0] = List.length [1%float] /\
  Neuron_call math_exp so (mkNeuron [0] 2) ([1%float] ++ [7%float]) h
    = Neuron_call math_exp so (mkNeuron [0] 2) [1%float] h /\
  Neuron_call math_exp so (mkNeuron ([0] ++ [1]) 2) [1%float] h
    = Neuron_call math_exp so (mkNeuron [0] 2) [1%float] h.
Proof.
  split; [reflexivity|].
  apply (neuron_ignores_surplus (fun x : float => Ok (1 + x)%float)
           (fun _ _ => true) [0] [1] 2 [1%float] [7%float]).
  reflexivity.
Defined.

(** ** Resetting the parameters *)

Lemma for_reset_spec ps : forall h,
  Forall (fun p => is_Some (h !! p)) ps ->
  exists h',
    for_ ps (setattr (with_grad 0)) h = Ok (tt, h') /\
    List.length h' = List.length h /\
    forall r t, h !! r = Some t ->
      h' !! r = Some (if decide (r ∈ ps) then with_grad 0 t else t).
Proof.
  induction ps as [|p ps IH]; intros h Hps.
  - exists h. split_and!; [done|done|]. intros r t Hr.
    rewrite decide_False; [done|]. apply not_elem_of_nil.
  - apply Forall_cons in Hps as [[tp Hp] Hps].
    destruct (IH (<[p := with_grad 0 tp]> h)) as (h' & Hrun & Hlen & Hlook).
    { eapply Forall_impl; [exact Hps|]. intros q Hq. simpl in Hq.
      apply lookup_lt_is_Some. rewrite length_insert.
      by apply lookup_lt_is_Some. }
    exists h'. split_and!.
    + simpl. unfold mbind, M_bind, setattr. by rewrite Hp.
    + by rewrite Hlen, length_insert.
    + intros r t Hr. destruct (decide (r = p)) as [->|Hne].
      * assert (t = tp) as -> by congruence.
        rewrite (Hlook p (with_grad 0 tp)).
        2: { apply list_lookup_insert_eq. by eapply lookup_lt_Some. }
        rewrite (decide_True (P := p ∈ p :: ps)) by (by left).
        by destruct (decide (p ∈ ps)).
      * rewrite (Hlook r t) by (by rewrite list_lookup_insert_ne).
        destruct (decide (r ∈ ps)) as [Hin|Hnot].
        -- rewrite decide_True; [done|by right].
        -- rewrite decide_False; [done|].
           intros Hin. apply elem_of_cons in Hin as [?|?]; done.
Qed.

(** X13. [reset_gradients] of a neuron, a layer or a network whose
    parameters are nodes of the heap returns with the gradient of every
    parameter at [0.0]; it changes nothing else: parameters keep value,
    operands and closure, and every other node, the intermediate results
    of earlier calls included, keeps its gradient too. *)
Theorem reset_gradients_zeroes_parameters (n : Neuron) (l : Layer) (m : MLP)
    (h : heap) :
  Forall (fun p => is_Some (h !! p)) (Neuron_parameters n) ->
  Forall (fun p => is_Some (h !! p)) (Layer_parameters l) ->
  Forall (fun p => is_Some (h !! p)) (MLP_parameters m) ->
  (exists h',
     Neuron_reset_gradients n h = Ok (tt, h') /\
     List.length h' = List.length h /\
     forall r t, h !! r = Some t ->
       h' !! r = Some (if decide (r ∈ Neuron_parameters n)
                       then with_grad 0 t else t)) /\
  (exists h',
     Layer_reset_gradients l h = Ok (tt, h') /\
     List.length h' = List.length h /\
     forall r t, h !! r = Some t ->
       h' !! r = Some (if decide (r ∈ Layer_parameters l)
                       then with_grad 0 t else t)) /\
  (exists h',
     MLP_reset_gradients m h = Ok (tt, h') /\
     List.length h' = List.length h /\
     forall r t, h !! r = Some t ->
       h' !! r = Some (if decide (r ∈ MLP_parameters m)
                       then with_grad 0 t else t)).
Proof.
  intros Hn Hl Hm. split_and!; by apply for_reset_spec.
Qed.

Lemma reset_gradients_zeroes_parameters_witness :
  let n := mkNeuron [0] 1 in
  let l := mkLayer [n] in
  let m := mkMLP [l] in
  let h := [mkTensor 0.5 [] 3 (mul_backward 0 2 3); mkTensor 0 [] 1 noop;
            mkTensor 1 [] 0.5 noop; mkTensor 0.5 [0; 2] 1 noop] in
  let h' := [mkTensor 0.5 [] 0 (mul_backward 0 2 3); mkTensor 0 [] 0 noop;
             mkTensor 1 [] 0.5 noop; mkTensor 0.5 [0; 2] 1 noop] in
  MLP_reset_gradients m h = Ok (tt, h') /\
  (exists h',
     Neuron_reset_gradients n h = Ok (tt, h') /\
     List.length h' = List.length h /\
     forall r t, h !! r = Some t ->
       h' !! r = Some (if decide (r ∈ Neuron_parameters n)
                       then with_grad 0 t else t)) /\
  (exists h',
     Layer_reset_gradients l h = Ok (tt, h') /\
     List.length h' = List.length h /\
     forall r t, h !! r = Some t ->
       h' !! r = Some (if decide (r ∈ Layer_parameters l)
                       then with_grad 0 t else t)) /\
  (exists h',
     MLP_reset_gradients m h = Ok (tt, h') /\
     List.length h' = List.length h /\
     forall r t, h !! r = Some t ->
       h' !! r = Some (if decide (r ∈ MLP_parameters m)
                       then with_grad 0 t else t)).
Proof.
  split; [reflexivity|].
  apply reset_gradients_zeroes_parameters;
    repeat (constructor; [by eexists|]); constructor.
Defined.

(** ** Operand sets and closures of built graphs *)

Lemma set2_shape set_order a b :
  NoDup (set2 set_order a b) /\ List.length (set2 set_order a b) <= 2 /\
  a ∈ set2 set_order a b.
Proof.
  unfold set2. destruct (decide (a = b)) as [->|Hne]; [|destruct (set_order a b)];
    split_and!; simpl; try lia; try set_solver;
    repeat (apply NoDup_cons; split; [set_solver|]); apply NoDup_nil_2.
Qed.

Section Operands.

Variable math_exp : float -> result float.
Variable float_pow : float -> float -> result float.
Variable set_order : ref -> ref -> bool.

(** The operand set of the node a primitive operation returns. *)
Lemma primitive_operands op self h out h' :
  primitive op = true ->
  perform math_exp float_pow set_order op self h = Ok (out, h') ->
  exists t, h' !! out = Some t /\ operands_bounded t /\ self ∈ _children t.
Proof.
  assert (operands_bounded (mkTensor 0 [self] 0 noop) /\ self ∈ [self]) as Hone.
  { split; [split; simpl; [apply NoDup_singleton|lia]|by left]. }
  intros Hp Hrun. destruct op as [operand| |operand|operand|power|operand| |];
    try discriminate Hp; simpl in Hrun.
  - destruct operand as [x|o|]; [rewrite add_num_eq in Hrun| |done];
      destruct (add_tensor_Ok _ _ _ _ _ _ Hrun) as (ts & to & Hs & Ho);
      rewrite (add_tensor_eq _ _ _ _ _ _ Hs Ho) in Hrun;
      injection Hrun as <- <-; eexists;
      (split; [by apply installed_out|]);
      match goal with
      | |- context [set2 ?so ?a ?b] =>
          destruct (set2_shape so a b) as (? & ? & ?)
      end; by repeat split.
  - destruct operand as [x|o|]; [rewrite mul_num_eq in Hrun| |done];
      destruct (mul_tensor_Ok _ _ _ _ _ _ Hrun) as (ts & to & Hs & Ho);
      rewrite (mul_tensor_eq _ _ _ _ _ _ Hs Ho) in Hrun;
      injection Hrun as <- <-; eexists;
      (split; [by apply installed_out|]);
      match goal with
      | |- context [set2 ?so ?a ?b] =>
          destruct (set2_shape so a b) as (? & ? & ?)
      end; by repeat split.
  - destruct (pow_Ok _ _ _ _ _ _ Hrun) as (ts & v & Hs & Hv).
    rewrite (pow_eq _ _ _ _ _ _ Hs Hv) in Hrun. injection Hrun as <- <-.
    eexists. split; [by apply installed_out|]. apply Hone.
  - destruct (exp_Ok _ _ _ _ _ Hrun) as (ts & v & Hs & Hv).
    rewrite (exp_eq _ _ _ _ _ Hs Hv) in Hrun. injection Hrun as <- <-.
    eexists. split; [by apply installed_out|]. apply Hone.
  - destruct (tanh_Ok _ _ _ _ _ Hrun) as (ts & v & Hs & Hv).
    rewrite (tanh_eq _ _ _ _ _ Hs Hv) in Hrun. injection Hrun as <- <-.
    eexists. split; [by apply installed_out|]. apply Hone.
Qed.

(** [perform_invariant], knowing what is installed: the closure stored in
    [self] is over the new node, whose operand set is small and has [self]
    in it. *)
Lemma perform_invariant_installed (I : heap -> Prop) op self h out h' :
  (forall h x, I h -> I (h ++ [mkTensor x [] 0 noop])) ->
  (forall h self ts rule v cs,
     I h -> h !! self = Some ts ->
     operands_bounded (mkTensor v cs 0 noop) -> self ∈ cs ->
     closure_out rule = Some (List.length h) ->
     closure_self rule = Some self ->
     I (installed h self ts rule v cs)) ->
  I h ->
  perform math_exp float_pow set_order op self h = Ok (out, h') ->
  I h'.
Proof.
  intros Hleaf Hinst.
  assert (forall op self h out h', primitive op = true -> I h ->
            perform math_exp float_pow set_order op self h = Ok (out, h') ->
            I h') as Hprim.
  { clear op self h out h'. intros op self h out h' Hp Hh Hrun.
    destruct (primitive_operands _ _ _ _ _ Hp Hrun) as (t & Ht & Hb & Hin).
    destruct (primitive_shape _ _ _ _ _ _ _ _ Hp Hrun)
      as (h0 & ts & rule & v & cs & Hh0 & _ & Hs & _ & -> & -> & Ho & Hself & _).
    rewrite (installed_out _ _ _ _ _ _ Hs) in Ht. injection Ht as <-.
    apply Hinst; try done.
    destruct Hh0 as [->|[x ->]]; [done|by apply Hleaf]. }
  intros Hh Hrun.
  destruct (derived_shape _ _ _ _ _ _ _ _ Hrun)
    as (op' & h1 & Hp & _ & [->|(op0 & r & a & Hp0 & Hrun0)] & Hrun'); eauto.
Qed.

End Operands.

(** X14. Operand sets. In every graph built by the operations, a node has
    at most two operands and none twice: [x + x] and [x * x] have the single
    operand [x]. *)
Theorem constructed_operand_sets math_exp float_pow set_order h r t :
  constructed math_exp float_pow set_order h ->
  h !! r = Some t ->
  NoDup (_children t) /\ List.length (_children t) <= 2.
Proof.
  intros Hbuilt Hr.
  assert (Forall operands_bounded h) as Hall.
  { clear r t Hr.
    induction Hbuilt as [|h v r h' _ IH Hleaf|h op self out h' _ IH _ Hrun].
    - constructor.
    - injection Hleaf as <- <-. apply Forall_app. split; [done|].
      apply Forall_singleton. split; simpl; [apply NoDup_nil_2|lia].
    - apply (perform_invariant_installed math_exp float_pow set_order
               (Forall operands_bounded) op self h out h'); [| |done|done].
      + intros k x Hk. apply Forall_app. split; [done|].
        apply Forall_singleton. split; simpl; [apply NoDup_nil_2|lia].
      + intros k s ts rule w cs Hk Hs Hcs _ _ _. unfold installed.
        apply Forall_insert.
        * apply Forall_app. split; [done|]. by apply Forall_singleton.
        * apply (Forall_lookup_1 _ _ _ _ Hk Hs). }
  apply (Forall_lookup_1 _ _ _ _ Hall Hr).
Qed.

Lemma constructed_operand_sets_witness :
  let so := fun _ _ : ref => true in
  let h := [mkTensor 2 [] 0 (add_backward 0 0 1); mkTensor 4 [0] 0 noop] in
  constructed (fun x => Ok x) (fun x _ => Ok x) so h /\
  h !! 1 = Some (mkTensor 4 [0] 0 noop) /\
  NoDup [0] /\ List.length [0] <= 2.
Proof.
  assert (constructed (fun x => Ok x) (fun x _ => Ok x) (fun _ _ => true)
            [mkTensor 2 [] 0 (add_backward 0 0 1); mkTensor 4 [0] 0 noop])
    as Hbuilt.
  { apply (constructed_op _ _ _ [mkTensor 2 [] 0 noop] (Add (PyTensor 0)) 0 1);
      [|by eexists|reflexivity].
    apply (constructed_leaf _ _ _ [] 2 0); [|reflexivity].
    apply constructed_empty. }
  split; [exact Hbuilt|]. split; [reflexivity|].
  exact (constructed_operand_sets _ _ _ _ 1 (mkTensor 4 [0] 0 noop)
           Hbuilt eq_refl).
Defined.

Lemma closure_layout_alloc h x :
  closure_layout h -> closure_layout (h ++ [mkTensor x [] 0 noop]).
Proof.
  intros Hlay r t Hr. apply lookup_app_Some in Hr as [Hr|[_ Hr]].
  - destruct (Hlay r t Hr) as [Hnoop|(out & tout & ? & ? & ? & Hout & ?)];
      [by left|right].
    exists out, tout. split_and!; try done. by apply lookup_old.
  - apply list_lookup_singleton_Some in Hr as [_ <-]. by left.
Qed.

Lemma closure_layout_installed h self ts rule v cs :
  closure_layout h ->
  h !! self = Some ts ->
  self ∈ cs ->
  closure_out rule = Some (List.length h) ->
  closure_self rule = Some self ->
  closure_layout (installed h self ts rule v cs).
Proof.
  intros Hlay Hs Hin Hout Hself r t Hr.
  pose proof (lookup_lt_Some _ _ _ Hs) as Hlt.
  destruct (decide (r = self)) as [->|Hne].
  - rewrite (installed_self _ _ _ _ _ _ Hs) in Hr. injection Hr as <-.
    right. exists (List.length h), (mkTensor v cs 0 noop).
    split_and!; try done. by apply installed_out.
  - unfold installed in Hr. rewrite list_lookup_insert_ne in Hr by done.
    apply lookup_app_Some in Hr as [Hr|[_ Hr]].
    + destruct (Hlay r t Hr) as [Hnoop|(out & tout & ? & ? & ? & Hlook & ?)];
        [by left|right].
      destruct (decide (out = self)) as [->|Hne'].
      * exists self, (with_backward rule ts).
        split_and!; try done; [by apply installed_self|].
        assert (tout = ts) as <- by congruence. done.
      * exists out, tout. split_and!; try done. by apply installed_other.
    + apply list_lookup_singleton_Some in Hr as [_ <-]. by left.
Qed.

(** X15. Where the closures are. In every graph built by the operations,
    each node carries either the default closure or the closure of an
    operation in which it was the left operand; that closure reads the
    gradient of the operation's result, a later node of the graph that has
    the node among its operands.  The result of an operation never carries
    the closure of the operation that made it. *)
Theorem constructed_closure_layout math_exp float_pow set_order h r t :
  constructed math_exp float_pow set_order h ->
  h !! r = Some t ->
  _backward t = noop \/
  exists out tout,
    closure_self (_backward t) = Some r /\
    closure_out (_backward t) = Some out /\
    r < out /\ h !! out = Some tout /\ r ∈ _children tout.
Proof.
  intros Hbuilt. revert r t.
  change (closure_layout h).
  induction Hbuilt as [|h v r h' _ IH Hleaf|h op self out h' _ IH _ Hrun].
  - intros r t Hr. by rewrite lookup_nil in Hr.
  - injection Hleaf as <- <-. by apply closure_layout_alloc.
  - apply (perform_invariant_installed math_exp float_pow set_order
             closure_layout op self h out h'); [| |done|done].
    + intros k x. apply closure_layout_alloc.
    + intros k s ts rule w cs Hk Hs _ Hin Ho Hself.
      by apply closure_layout_installed.
Qed.

Lemma constructed_closure_layout_witness :
  let so := fun _ _ : ref => true in
  let h := [mkTensor 2 [] 0 (mul_backward 0 1 2); mkTensor 3 [] 0 noop;
            mkTensor 6 [0; 1] 0 noop] in
  constructed (fun x => Ok x) (fun x _ => Ok x) so h /\
  h !! 0 = Some (mkTensor 2 [] 0 (mul_backward 0 1 2)) /\
  (mul_backward 0 1 2 = noop \/
   exists out tout,
     closure_self (mul_backward 0 1 2) = Some 0 /\
     closure_out (mul_backward 0 1 2) = Some out /\
     0 < out /\ h !! out = Some tout /\ 0 ∈ _children tout).
Proof.
  assert (constructed (fun x => Ok x) (fun x _ => Ok x) (fun _ _ => true)
            [mkTensor 2 [] 0 (mul_backward 0 1 2); mkTensor 3 [] 0 noop;
             mkTensor 6 [0; 1] 0 noop]) as Hbuilt.
  { apply (constructed_op _ _ _
             [mkTensor 2 [] 0 noop; mkTensor 3 [] 0 noop]
             (Mul (PyTensor 1)) 0 2); [|by eexists|reflexivity].
    apply (constructed_leaf _ _ _ [mkTensor 2 [] 0 noop] 3 1); [|reflexivity].
    apply (constructed_leaf _ _ _ [] 2 0); [|reflexivity].
    apply constructed_empty. }
  split; [exact Hbuilt|]. split; [reflexivity|].
  exact (constructed_closure_layout _ _ _ _ 0
           (mkTensor 2 [] 0 (mul_backward 0 1 2)) Hbuilt eq_refl).
Defined.

(** ** When [backward] returns *)

Lemma same_structure_length h h' :
  same_structure h h' -> List.length h' = List.length h.
Proof.
  unfold same_structure, reset_all. intros H.
  apply (f_equal List.length) in H. by rewrite !length_fmap in H.
Qed.

Lemma same_structure_lookup h h' r t :
  same_structure h h' -> h !! r = Some t ->
  exists t', h' !! r = Some t' /\
    value t' = value t /\ _children t' = _children t /\
    _backward t' = _backward t.
Proof.
  unfold same_structure, reset_all. intros H Hr.
  apply (f_equal (fun k : heap => k !! r)) in H.
  rewrite !list_lookup_fmap, Hr in H.
  destruct (h' !! r) as [t'|]; [|done].
  injection H as Hv Hc Hb. by exists t'.
Qed.

Lemma same_structure_sym h h' : same_structure h h' -> same_structure h' h.
Proof. unfold same_structure. by intros ->. Qed.

Lemma same_structure_trans h1 h2 h3 :
  same_structure h1 h2 -> same_structure h2 h3 -> same_structure h1 h3.
Proof. unfold same_structure. by intros <- <-. Qed.

Lemma same_structure_closed h h' :
  same_structure h h' -> closures_closed h -> closures_closed h'.
Proof.
  intros Hsame Hclosed r t' Hr x Hx.
  destruct (same_structure_lookup h' h r t' (same_structure_sym _ _ Hsame) Hr)
    as (t & Ht & _ & _ & Hb).
  rewrite (same_structure_length _ _ Hsame).
  apply (Hclosed r t Ht). by rewrite Hb.
Qed.

Lemma same_structure_holds h h' r v :
  same_structure h h' -> holds h' r v -> holds h r v.
Proof.
  intros Hsame Hr. apply holds_lookup in Hr as (t' & Ht' & <-).
  destruct (same_structure_lookup h' h r t' (same_structure_sym _ _ Hsame) Ht')
    as (t & Ht & Hv & _).
  apply holds_lookup. by exists t.
Qed.

Lemma getattr_run {A} (field : Tensor -> A) r h :
  r < List.length h -> exists a, getattr field r h = Ok (a, h).
Proof.
  intros Hlt. destruct (lookup_lt_is_Some_2 h r Hlt) as [t Ht].
  exists (field t). unfold getattr. by rewrite Ht.
Qed.

Lemma add_to_grad_run target delta h :
  target < List.length h ->
  exists h', add_to_grad target delta h = Ok (tt, h') /\ same_structure h h'.
Proof.
  intros Hlt. destruct (lookup_lt_is_Some_2 h target Hlt) as [t Ht].
  exists (<[target := with_grad (grad t + delta) t]> h).
  split.
  - unfold add_to_grad, getattr, setattr, mbind, M_bind. by rewrite Ht, Ht.
  - by apply reset_all_setattr_grad.
Qed.

Section BackwardReturns.

Variable float_pow : float -> float -> result float.

(** Calling a closure whose nodes exist and whose [**] does not raise. *)
Lemma call_run c h :
  (forall x, x ∈ closure_refs c -> x < List.length h) ->
  closure_pow_ok float_pow h c ->
  exists h', call float_pow c h = Ok (tt, h') /\ same_structure h h'.
Proof.
  intros Hrefs Hpow.
  assert (forall (x : ref) k, same_structure h k -> x ∈ closure_refs c ->
            x < List.length k) as Hlt.
  { intros x k Hk Hx. rewrite (same_structure_length _ _ Hk). by apply Hrefs. }
  assert (same_structure h h) as Hrefl by done.
  destruct c as [|self operand out|self operand out|self power out
                 |self value out|self value out]; simpl in *.
  - by exists h.
  - destruct (getattr_run grad out h) as [g Hg]; [apply Hrefs; set_solver|].
    destruct (add_to_grad_run self g h) as (h1 & H1 & S1); [apply Hrefs; set_solver|].
    destruct (getattr_run grad out h1) as [g' Hg']; [apply Hlt; [done|set_solver]|].
    destruct (add_to_grad_run operand g' h1) as (h2 & H2 & S2);
      [apply Hlt; [done|set_solver]|].
    exists h2. split; [|by apply (same_structure_trans _ h1)].
    rewrite (bind_run _ _ _ _ _ Hg), (bind_run _ _ _ _ _ H1).
    by rewrite (bind_run _ _ _ _ _ Hg').
  - destruct (getattr_run value operand h) as [b Hb]; [apply Hrefs; set_solver|].
    destruct (getattr_run grad out h) as [g Hg]; [apply Hrefs; set_solver|].
    destruct (add_to_grad_run self (b * g)%float h) as (h1 & H1 & S1);
      [apply Hrefs; set_solver|].
    destruct (getattr_run value self h1) as [a Ha]; [apply Hlt; [done|set_solver]|].
    destruct (getattr_run grad out h1) as [g' Hg']; [apply Hlt; [done|set_solver]|].
    destruct (add_to_grad_run operand (a * g')%float h1) as (h2 & H2 & S2);
      [apply Hlt; [done|set_solver]|].
    exists h2. split; [|by apply (same_structure_trans _ h1)].
    rewrite (bind_run _ _ _ _ _ Hb), (bind_run _ _ _ _ _ Hg).
    rewrite (bind_run _ _ _ _ _ H1), (bind_run _ _ _ _ _ Ha).
    by rewrite (bind_run _ _ _ _ _ Hg').
  - destruct (lookup_lt_is_Some_2 h self) as [ts Hs]; [apply Hrefs; set_solver|].
    destruct (Hpow (value ts)) as [p Hp]; [apply holds_lookup; by exists ts|].
    destruct (getattr_run grad out h) as [g Hg]; [apply Hrefs; set_solver|].
    destruct (add_to_grad_run self (power * p * g)%float h) as (h1 & H1 & S1);
      [apply Hrefs; set_solver|].
    exists h1. split; [|done].
    assert (getattr value self h = Ok (value ts, h)) as Ha.
    { unfold getattr. by rewrite Hs. }
    rewrite (bind_run _ _ _ _ _ Ha).
    assert (lift (float_pow (value ts) (power - 1)) h = Ok (p, h)) as Hl.
    { unfold lift. by rewrite Hp. }
    by rewrite (bind_run _ _ _ _ _ Hl), (bind_run _ _ _ _ _ Hg).
  - destruct (getattr_run grad out h) as [g Hg]; [apply Hrefs; set_solver|].
    destruct (add_to_grad_run self (value * g)%float h) as (h1 & H1 & S1);
      [apply Hrefs; set_solver|].
    exists h1. split; [|done]. by rewrite (bind_run _ _ _ _ _ Hg).
  - destruct Hpow as [sq Hsq].
    destruct (getattr_run grad out h) as [g Hg]; [apply Hrefs; set_solver|].
    destruct (add_to_grad_run self ((1 - sq) * g)%float h) as (h1 & H1 & S1);
      [apply Hrefs; set_solver|].
    exists h1. split; [|done].
    assert (lift (float_pow value 2) h = Ok (sq, h)) as Hl.
    { unfold lift. by rewrite Hsq. }
    by rewrite (bind_run _ _ _ _ _ Hl), (bind_run _ _ _ _ _ Hg).
Qed.

Lemma closure_pow_ok_same h h' c :
  same_structure h h' -> closure_pow_ok float_pow h c ->
  closure_pow_ok float_pow h' c.
Proof.
  intros Hsame Hok. destruct c; simpl in *; try done.
  intros a Ha. apply Hok. by apply (same_structure_holds h h').
Qed.

(** The loop of [backward] over nodes of the heap. *)
Lemma for_backward_run order : forall h,
  closures_closed h ->
  (forall r t, h !! r = Some t -> closure_pow_ok float_pow h (_backward t)) ->
  Forall (fun n => n < List.length h) order ->
  exists h',
    for_ order
      (fun node => rule ← getattr _backward node; call float_pow rule) h
      = Ok (tt, h') /\
    same_structure h h'.
Proof.
  induction order as [|node order IH]; intros h Hclosed Hpow Horder.
  - by exists h.
  - apply Forall_cons in Horder as [Hnode Horder].
    destruct (lookup_lt_is_Some_2 h node Hnode) as [t Ht].
    destruct (call_run (_backward t) h) as (h1 & Hcall & S1).
    { by apply (Hclosed node t). }
    { by apply (Hpow node t). }
    destruct (IH h1) as (h' & Hrest & S2).
    { by apply (same_structure_closed h). }
    { intros r t1 Hr.
      destruct (same_structure_lookup h1 h r t1 (same_structure_sym _ _ S1) Hr)
        as (t0 & Ht0 & _ & _ & Hb).
      rewrite <- Hb. apply (closure_pow_ok_same h); [done|]. by apply (Hpow r). }
    { by rewrite (same_structure_length _ _ S1). }
    exists h'. split; [|by apply (same_structure_trans _ h1)].
    simpl.
    assert ((rule ← getattr _backward node; call float_pow rule) h = Ok (tt, h1))
      as Hstep.
    { assert (getattr _backward node h = Ok (_backward t, h)) as Hg.
      { unfold getattr. by rewrite Ht. }
      by rewrite (bind_run _ _ _ _ _ Hg). }
    by rewrite (bind_run _ _ _ _ _ Hstep).
Qed.

End BackwardReturns.

Lemma closures_closed_alloc h x :
  closures_closed h -> closures_closed (h ++ [mkTensor x [] 0 noop]).
Proof.
  intros Hclosed r t Hr y Hy. rewrite length_app. simpl.
  apply lookup_app_Some in Hr as [Hr|[_ Hr]].
  - pose proof (Hclosed r t Hr y Hy). lia.
  - apply list_lookup_singleton_Some in Hr as [_ <-]. by apply elem_of_nil in Hy.
Qed.

Section ClosuresClosed.

Variable math_exp : float -> result float.
Variable float_pow : float -> float -> result float.
Variable set_order : ref -> ref -> bool.

(** The closure a primitive operation stores mentions [self], the operand
    and the result, all nodes of the heap it leaves. *)
Lemma primitive_closure_refs op self h out h' :
  primitive op = true ->
  perform math_exp float_pow set_order op self h = Ok (out, h') ->
  exists ts', h' !! self = Some ts' /\
    forall x, x ∈ closure_refs (_backward ts') -> x < List.length h'.
Proof.
  intros Hp Hrun. destruct op as [operand| |operand|operand|power|operand| |];
    try discriminate Hp; simpl in Hrun.
  - destruct operand as [y|o|]; [rewrite add_num_eq in Hrun| |done];
      destruct (add_tensor_Ok _ _ _ _ _ _ Hrun) as (ts & to & Hs & Ho);
      rewrite (add_tensor_eq _ _ _ _ _ _ Hs Ho) in Hrun;
      injection Hrun as <- <-; eexists;
      (split; [by apply installed_self|]);
      apply lookup_lt_Some in Hs; apply lookup_lt_Some in Ho;
      intros x Hx; rewrite installed_length; simpl in Hx; set_solver by lia.
  - destruct operand as [y|o|]; [rewrite mul_num_eq in Hrun| |done];
      destruct (mul_tensor_Ok _ _ _ _ _ _ Hrun) as (ts & to & Hs & Ho);
      rewrite (mul_tensor_eq _ _ _ _ _ _ Hs Ho) in Hrun;
      injection Hrun as <- <-; eexists;
      (split; [by apply installed_self|]);
      apply lookup_lt_Some in Hs; apply lookup_lt_Some in Ho;
      intros x Hx; rewrite installed_length; simpl in Hx; set_solver by lia.
  - destruct (pow_Ok _ _ _ _ _ _ Hrun) as (ts & v & Hs & Hv).
    rewrite (pow_eq _ _ _ _ _ _ Hs Hv) in Hrun. injection Hrun as <- <-.
    eexists. split; [by apply installed_self|]. apply lookup_lt_Some in Hs.
    intros x Hx. rewrite installed_length. simpl in Hx. set_solver by lia.
  - destruct (exp_Ok _ _ _ _ _ Hrun) as (ts & v & Hs & Hv).
    rewrite (exp_eq _ _ _ _ _ Hs Hv) in Hrun. injection Hrun as <- <-.
    eexists. split; [by apply installed_self|]. apply lookup_lt_Some in Hs.
    intros x Hx. rewrite installed_length. simpl in Hx. set_solver by lia.
  - destruct (tanh_Ok _ _ _ _ _ Hrun) as (ts & v & Hs & Hv).
    rewrite (tanh_eq _ _ _ _ _ Hs Hv) in Hrun. injection Hrun as <- <-.
    eexists. split; [by apply installed_self|]. apply lookup_lt_Some in Hs.
    intros x Hx. rewrite installed_length. simpl in Hx. set_solver by lia.
Qed.

Lemma primitive_closures_closed op self h out h' :
  primitive op = true ->
  closures_closed h ->
  perform math_exp float_pow set_order op self h = Ok (out, h') ->
  closures_closed h'.
Proof.
  intros Hp Hclosed Hrun.
  destruct (primitive_closure_refs _ _ _ _ _ Hp Hrun) as (ts' & Hs' & Hrefs).
  destruct (primitive_shape _ _ _ _ _ _ _ _ Hp Hrun)
    as (h0 & ts & rule & v & cs & Hh0 & _ & Hs & _ & _ & -> & _).
  assert (closures_closed h0) as Hclosed0.
  { destruct Hh0 as [->|[x ->]]; [done|by apply closures_closed_alloc]. }
  intros r t Hr y Hy. destruct (decide (r = self)) as [->|Hne].
  - apply Hrefs. by assert (ts' = t) as -> by congruence.
  - rewrite installed_length. unfold installed in Hr.
    rewrite list_lookup_insert_ne in Hr by done.
    apply lookup_app_Some in Hr as [Hr|[_ Hr]].
    + pose proof (Hclosed0 r t Hr y Hy). lia.
    + apply list_lookup_singleton_Some in Hr as [_ <-]. by apply elem_of_nil in Hy.
Qed.

Lemma constructed_closures_closed h :
  constructed math_exp float_pow set_order h -> closures_closed h.
Proof.
  induction 1 as [|h v r h' _ IH Hleaf|h op self out h' _ IH _ Hrun].
  - intros r t Hr. by rewrite lookup_nil in Hr.
  - injection Hleaf as <- <-. by apply closures_closed_alloc.
  - destruct (derived_shape _ _ _ _ _ _ _ _ Hrun)
      as (op' & h1 & Hp & _ & [->|(op0 & r & a & Hp0 & Hrun0)] & Hrun');
      eauto using primitive_closures_closed.
Qed.

End ClosuresClosed.

Lemma reachable_is_Some h T n :
  (forall n o, operand_of h n o -> is_Some (h !! o)) ->
  is_Some (h !! T) -> reachable h T n -> is_Some (h !! n).
Proof.
  intros Hclosed HT.
  apply (rtc_ind_r (fun n => is_Some (h !! n)) T); [done|].
  intros x y _ Hxy _. by apply (Hclosed x).
Qed.

(** X16. When [backward] returns. On a graph built by the operations, from
    a node [T] whose allocation index is below the recursion limit,
    [backward] returns, changing gradients only, as soon as no [**] inside
    a [pow] or [tanh] closure of the graph raises: no other failure is
    possible. *)
Theorem backward_returns math_exp float_pow set_order recursion_limit h T :
  constructed math_exp float_pow set_order h ->
  is_Some (h !! T) ->
  T < recursion_limit ->
  (forall r t, h !! r = Some t -> closure_pow_ok float_pow h (_backward t)) ->
  exists h',
    backward float_pow recursion_limit T h = Ok (tt, h') /\
    same_structure h h'.
Proof.
  intros Hbuilt [t Ht] Hlimit Hpow.
  pose proof (constructed_closures_closed _ _ _ _ Hbuilt) as Hclosed.
  apply constructed_allocation_ordered in Hbuilt.
  set (h1 := <[T := with_grad 1 t]> h).
  assert (same_structure h h1) as S1 by (by apply reset_all_setattr_grad).
  pose proof (fun r => seed_lookup_children h T t 1%float r Ht) as Hsame.
  assert (allocation_ordered h1) as Hall1.
  { intros n o Hop. by apply Hbuilt, (same_children_operand_of _ _ _ _ Hsame). }
  assert (is_Some (h1 !! T)) as HT1.
  { apply lookup_lt_is_Some. unfold h1. rewrite length_insert.
    by eapply lookup_lt_Some. }
  destruct (topological_sort_spec h1 (fun n => n) recursion_limit T)
    as (order & Hsort & _ & _ & Hreach); [done| |done|done|].
  { intros n o. by apply allocation_ordered_closed. }
  destruct (for_backward_run float_pow (reverse order) h1) as (h' & Hloop & S2).
  - by apply (same_structure_closed h).
  - intros r t1 Hr.
    destruct (same_structure_lookup h1 h r t1 (same_structure_sym _ _ S1) Hr)
      as (t0 & Ht0 & _ & _ & Hb).
    rewrite <- Hb. apply (closure_pow_ok_same float_pow h); [done|].
    by apply (Hpow r).
  - apply Forall_reverse, Forall_forall. intros n Hn.
    apply lookup_lt_is_Some, (reachable_is_Some h1 T); [|done|by apply Hreach].
    intros m o. by apply allocation_ordered_closed.
  - exists h'. split; [|by apply (same_structure_trans _ h1)].
    unfold backward.
    assert (setattr (with_grad 1) T h = Ok (tt, h1)) as Hseed.
    { unfold setattr. by rewrite Ht. }
    rewrite (bind_run _ _ _ _ _ Hseed).
    by rewrite (bind_run _ _ _ _ _ Hsort).
Qed.

Lemma backward_returns_witness :
  let pow := fun x _ : float => Ok x in
  let h := [mkTensor 2 [] 0 (mul_backward 0 1 2); mkTensor 3 [] 0 noop;
            mkTensor 6 [0; 1] 0 noop] in
  constructed (fun x => Ok x) pow (fun _ _ => true) h /\
  exists h',
    backward pow 1000 2 h = Ok (tt, h') /\ same_structure h h'.
Proof.
  assert (constructed (fun x => Ok x) (fun x _ : float => Ok x) (fun _ _ => true)
            [mkTensor 2 [] 0 (mul_backward 0 1 2); mkTensor 3 [] 0 noop;
             mkTensor 6 [0; 1] 0 noop]) as Hbuilt.
  { apply (constructed_op _ _ _
             [mkTensor 2 [] 0 noop; mkTensor 3 [] 0 noop]
             (Mul (PyTensor 1)) 0 2); [|by eexists|reflexivity].
    apply (constructed_leaf _ _ _ [mkTensor 2 [] 0 noop] 3 1); [|reflexivity].
    apply (constructed_leaf _ _ _ [] 2 0); [|reflexivity].
    apply constructed_empty. }
  split; [exact Hbuilt|].
  apply (backward_returns _ _ _ 1000 _ 2 Hbuilt); [by eexists|lia|].
  intros r t Hr. destruct r as [|[|[|r]]]; simpl in Hr; [| | |done];
    injection Hr as <-; exact I.
Defined.

(** ** Degenerate networks *)

(** X17. Networks without layers or with an empty first layer. A network
    built with [n_units = []] has no layer, and calling it raises
    [UnboundLocalError] ([out] is never bound); a network whose first layer
    was built with zero units raises [IndexError] when called, whatever the
    inputs and the other layers. *)
Theorem degenerate_network_call uniform math_exp set_order
    n_inputs n_units k h inputs h0 :
  (exists mlp k' h',
     MLP_init uniform n_inputs [] k h = Ok ((mlp, k'), h') /\
     MLP_call math_exp set_order mlp inputs h0 = Raise UnboundLocalError) /\
  (exists mlp k' h',
     MLP_init uniform n_inputs (0 :: n_units) k h = Ok ((mlp, k'), h') /\
     MLP_call math_exp set_order mlp inputs h0 = Raise IndexError).
Proof.
  split.
  - by eexists _, _, _.
  - destruct (MLP_init_layers_spec uniform (0 :: n_units) [] n_inputs k h)
      as (ls & vs & Hrun & _ & _ & Hshape).
    exists (mkMLP ls), (k + weight_count n_inputs (0 :: n_units)), (h ++ (leaf <$> vs)).
    split.
    + unfold MLP_init. simpl in Hrun. by rewrite (bind_run _ _ _ _ _ Hrun).
    + destruct ls as [|l ls]; [done|]. destruct Hshape as [[Hlen _] _].
      apply nil_length_inv in Hlen.
      unfold MLP_call. simpl. unfold Layer_call. rewrite Hlen. reflexivity.
Qed.
